(** * Gaussian NeRF field and model: a shallow embedding

    The development follows [nerfstudio/fields/gaussian_NeRF_Field.py] and
    [nerfstudio/models/gaussian_NeRF.py].  Tensor elements are real numbers
    (the idealisation of float32/float64 arithmetic), tensors are nested
    lists, Python exceptions are values of an error monad, and the pieces of
    torch, nerfacc and tiny-cuda-nn that are opaque to the two files are the
    members of the class [Externals].

    Real numbers stand for floats up to rounding.  Where float32 leaves
    the reals for good, the model says so or the statements keep away:
    the underflow of [torch.exp] in [make_gaussian_kernel] and the nan
    kernel it causes are modelled ([torch_exp], [Nan]); the saturation of
    the float32 sigmoid at 0 and 1 and the values -inf, inf and nan of the
    inverse CDF at and beyond the ends of [0, 1] are not, and the
    statements that would depend on them bound the grid instead. *)

From Stdlib Require Import Reals Lra Lia ZArith String Bool Arith List.
Import ListNotations.
Open Scope R_scope.

(** ** Python exceptions *)

Inductive exn : Type :=
| UnboundLocalError (name : string)
| AssertionError
| RuntimeError (msg : string).

(** What a call ends in: a value, an exception, or a value that holds
    nan.  The tensors of this development have real entries, so a tensor
    with a nan entry has no value here: [Nan] says that the code returned
    one, and the model follows the computation no further. *)
Inductive result (A : Type) : Type :=
| Ok (a : A)
| Raise (e : exn)
| Nan.
Arguments Ok {A} a.
Arguments Raise {A} e.
Arguments Nan {A}.

Definition bind {A B : Type} (m : result A) (k : A -> result B) : result B :=
  match m with
  | Ok a => k a
  | Raise e => Raise e
  | Nan => Nan
  end.

Notation "x <- m ;; k" := (bind m (fun x => k))
  (at level 61, m at next level, right associativity).

(** Reading a local variable that no executed branch has assigned. *)
Definition read_local {A : Type} (name : string) (v : option A) : result A :=
  match v with
  | Some a => Ok a
  | None => Raise (UnboundLocalError name)
  end.

(** [int(x)] on a float: truncation towards zero. *)
Definition py_int (x : R) : Z :=
  if Rle_dec 0 x then Int_part x else (- Int_part (- x))%Z.

(** ** Tensors *)

Definition point : Type := R * R * R.

(** A volume is indexed depth, height, width; reading outside it gives 0. *)
Definition vol : Type := list (list (list R)).

Definition vget (v : vol) (a b c : nat) : R :=
  nth c (nth b (nth a v []) []) 0.

Definition vbuild (D H W : nat) (g : nat -> nat -> nat -> R) : vol :=
  map (fun a => map (fun b => map (fun c => g a b c) (seq 0 W)) (seq 0 H))
      (seq 0 D).

Definition dimD (v : vol) : nat := length v.
Definition dimH (v : vol) : nat := length (hd [] v).
Definition dimW (v : vol) : nat := length (hd [] (hd [] v)).

(** Every plane has [H] rows and every row has [W] entries. *)
Definition rect (D H W : nat) (v : vol) : Prop :=
  length v = D /\
  Forall (fun pl => length pl = H /\ Forall (fun r => length r = W) pl) v.

Definition vmap (g : R -> R) (v : vol) : vol := map (map (map g)) v.

(** Every element of the volume satisfies [P]. *)
Definition vall (P : R -> Prop) (v : vol) : Prop :=
  Forall (Forall (Forall P)) v.

Definition Rsum (l : list R) : R := fold_right Rplus 0 l.

(** [sum_n n g] is g 0 + ... + g (n-1). *)
Definition sum_n (n : nat) (g : nat -> R) : R := Rsum (map g (seq 0 n)).

(** ** torch primitives used by the field *)

(** [torch.linspace] / [np.linspace] with [steps] points. *)
Definition linspace (start stop : R) (steps : nat) : list R :=
  match steps with
  | O => []
  | S O => [start]
  | _ => map (fun i => start + INR i * ((stop - start) / (INR steps - 1)))
             (seq 0 steps)
  end.

(** [torch.exp] on float32 tensors: e^x below 2^-150, half the smallest
    subnormal number, rounds to 0, that is for x below -150 ln 2, about
    -103.97. *)
Definition exp_underflow : R := 150 * ln 2.

Definition torch_exp (x : R) : R :=
  if Rlt_dec x (- exp_underflow) then 0 else exp x.

Definition relu (x : R) : R := Rmax 0 x.

(** [torch.nn.Sigmoid] in exact arithmetic; in float32 the value is
    exactly 1 from about x = 17 on, and exactly 0 far on the negative
    side. *)
Definition sigmoid (x : R) : R := 1 / (1 + exp (- x)).

(** ** torch.nn.functional

    The two leading singleton axes that the source adds with
    [vol[None, None, ...]] (batch and channel) carry no data and are left
    implicit: [conv3d], [interpolate] and [grid_sample] act on the single
    volume of the 5-D tensor. *)

(** The zero-padded input read at padded index (u, v, t). *)
Definition padded (x : vol) (pd ph pw : nat) (u v t : nat) : R :=
  if ((pd <=? u) && (ph <=? v) && (pw <=? t))%nat
  then vget x (u - pd) (v - ph) (t - pw)
  else 0.

(** [F.conv3d(x, w, stride=1, padding=(pd, ph, pw))] for one input and one
    output channel: a cross-correlation of the zero-padded input. *)
Definition conv3d (x w : vol) (padding : nat * nat * nat) : result vol :=
  let '(pd, ph, pw) := padding in
  let '(D, H, W) := (dimD x, dimH x, dimW x) in
  let '(Kd, Kh, Kw) := (dimD w, dimH w, dimW w) in
  if ((D + 2 * pd <? Kd) || (H + 2 * ph <? Kh) || (W + 2 * pw <? Kw))%nat then
    Raise (RuntimeError "Kernel size can't be greater than actual input size")
  else
    Ok (vbuild (D + 2 * pd - Kd + 1) (H + 2 * ph - Kh + 1) (W + 2 * pw - Kw + 1)
          (fun a b c =>
             sum_n Kd (fun i => sum_n Kh (fun j => sum_n Kw (fun l =>
               vget w i j l * padded x pd ph pw (a + i) (b + j) (c + l)))))).

(** [t.permute(0, 1, 4, 2, 3)]: the new spatial axes are (W, D, H). *)
Definition permute_01423 (v : vol) : vol :=
  vbuild (dimW v) (dimD v) (dimH v) (fun i j k => vget v j k i).

(** [k[None, None, :, None, None]]: a K x 1 x 1 weight. *)
Definition k1d_of (k : list R) : vol := map (fun c => [[c]]) k.

(** [F.interpolate(t, scale_factor=s)] in its default nearest mode. *)
Definition interpolate (v : vol) (s : nat) : vol :=
  vbuild (s * dimD v) (s * dimH v) (s * dimW v)
         (fun a b c => vget v (a / s) (b / s) (c / s)).

(** One corner of the trilinear stencil; corners outside the volume
    contribute 0 ([padding_mode='zeros']). *)
Definition corner (v : vol) (iz iy ix : Z) : R :=
  if ((0 <=? iz) && (iz <? Z.of_nat (dimD v)) &&
      (0 <=? iy) && (iy <? Z.of_nat (dimH v)) &&
      (0 <=? ix) && (ix <? Z.of_nat (dimW v)))%Z
  then vget v (Z.to_nat iz) (Z.to_nat iy) (Z.to_nat ix)
  else 0.

(** [align_corners=True]: -1 and 1 are the centres of the first and last
    voxel. *)
Definition unnormalize (coord : R) (size : nat) : R :=
  (coord + 1) / 2 * (INR size - 1).

(** [F.grid_sample(v, grid, align_corners=True)] at one grid entry; the
    entry is (x, y, z) with x along W, y along H and z along D. *)
Definition grid_sample1 (v : vol) (p : point) : R :=
  let '(x, y, z) := p in
  let ix := unnormalize x (dimW v) in
  let iy := unnormalize y (dimH v) in
  let iz := unnormalize z (dimD v) in
  let x0 := Int_part ix in
  let y0 := Int_part iy in
  let z0 := Int_part iz in
  let fx := ix - IZR x0 in
  let fy := iy - IZR y0 in
  let fz := iz - IZR z0 in
  corner v z0 y0 x0 * ((1 - fx) * (1 - fy) * (1 - fz))
  + corner v z0 y0 (x0 + 1) * (fx * (1 - fy) * (1 - fz))
  + corner v z0 (y0 + 1) x0 * ((1 - fx) * fy * (1 - fz))
  + corner v z0 (y0 + 1) (x0 + 1) * (fx * fy * (1 - fz))
  + corner v (z0 + 1) y0 x0 * ((1 - fx) * (1 - fy) * fz)
  + corner v (z0 + 1) y0 (x0 + 1) * (fx * (1 - fy) * fz)
  + corner v (z0 + 1) (y0 + 1) x0 * ((1 - fx) * fy * fz)
  + corner v (z0 + 1) (y0 + 1) (x0 + 1) * (fx * fy * fz).

(** [grid] is the list of the N grid entries of a (1, 1, 1, N, 3) tensor;
    the result is the list of the N sampled values. *)
Definition grid_sample (v : vol) (grid : list point) : list R :=
  map (grid_sample1 v) grid.

Definition norm2 (g : point) : R :=
  let '(x, y, z) := g in sqrt (x ^ 2 + y ^ 2 + z ^ 2).

Definition mean (l : list R) : R := Rsum l / INR (length l).

Definition clamp (x lo hi : R) : R := Rmin (Rmax x lo) hi.

(** ** External collaborators *)

Inductive ContractionType : Type :=
| AABB
| UN_BOUNDED_TANH
| UN_BOUNDED_SPHERE.

(** An image is height x width x channel. *)
Definition image : Type := list (list (list R)).

(** nerfacc's occupancy grid, as its grid of occupancy values. *)
Definition OccupancyGrid : Type := vol.

Class Externals : Type := {
  (** [nerfacc.contract(x, roi, type)] on one point *)
  contract : point * point -> ContractionType -> point -> point;
  (** [OccupancyGrid.every_n_step(step, occ_eval_fn)] *)
  every_n_step :
    nat -> (list point -> result (list R)) -> OccupancyGrid ->
    result OccupancyGrid;
  (** [tcnn.NetworkWithInputEncoding] with the given output width *)
  tcnn_network : nat -> point -> list R;
  (** [nerfstudio.field_components.activations.trunc_exp] *)
  trunc_exp : R -> R;
  (** [torch.distributions.normal.Normal(0, 1).icdf]; the code's function
      is -inf at 0, inf at 1 and nan outside [0, 1], which a real-valued
      function does not show *)
  icdf : R -> R;
  (** [torch.autograd.grad(outputs, inputs, grad_outputs)]: [outputs] is
      given as the computation that produced it from [inputs] *)
  autograd_grad :
    (list point -> list R) -> list point -> list R -> list point;
  (** the value [torch.rand] draws for the element at an index *)
  torch_rand : nat -> nat -> nat -> R;
  (** [nerfstudio.utils.colormaps] *)
  apply_colormap : image -> image;
  apply_depth_colormap : image -> image -> image;
  (** torchmetrics *)
  psnr : image -> image -> R;
  ssim : image -> image -> R;
  lpips : image -> image -> R
}.

(** ** gaussian_NeRF_Field.py *)

Definition get_normalized_directions (directions : list point) : list point :=
  map (fun '(x, y, z) => ((x + 1) / 2, (y + 1) / 2, (z + 1) / 2)) directions.

(** The kernel length computed by the first three lines of
    [make_gaussian_kernel]. *)
Definition kernel_size (sigma : R) : Z :=
  let ks := py_int (sigma * 5) in
  if (ks mod 2 =? 0)%Z then (ks + 1)%Z else ks.

(** The sample points [torch.linspace(-ks // 2, ks // 2 + 1, ks)]. *)
Definition kernel_support (ks : Z) : list R :=
  linspace (IZR (- ks / 2)) (IZR (ks / 2 + 1)) (Z.to_nat ks).

(** The unnormalised values [gauss] of [make_gaussian_kernel], a float32
    tensor. *)
Definition gauss (sigma : R) (ts : list R) : list R :=
  map (fun t => torch_exp (- (t / sigma) ^ 2 / 2)) ts.

(** [kernel = gauss / gauss.sum()] is 0/0 = nan in every entry when
    the sum is 0, which happens when every entry of [gauss] has
    underflowed.  With [sigma = 0] the quotient [ts / sigma] is infinite
    (no sample point is 0 then: the only one is -1), [gauss] is 0 and the
    kernel is nan as well. *)
Definition make_gaussian_kernel (sigma : R) : result (list R) :=
  let ks := kernel_size sigma in
  if (ks <? 0)%Z then
    Raise (RuntimeError "number of steps must be non-negative")
  else
    let ts := kernel_support ks in
    if Req_dec_T sigma 0 then Nan
    else
      let gauss := gauss sigma ts in
      if Req_dec_T (Rsum gauss) 0 then Nan
      else
        let kernel := map (fun g => g / Rsum gauss) gauss in
        Ok kernel.

(** The arguments of [TCNNGaussianNeRFField.__init__] that the modelled
    methods read. *)
Module Args.
Record t : Type := {
  aabb : point * point;
  sigma : R;
  f_init : string;
  f_transition_function : string;
  f_grid_resolution : nat;
  g_transition_function : string;
  g_transition_alpha : R;
  g_transition_alpha_increments : R;
  occupancy_to_density_transformation_function : string;
  density_multiplier : R;
  geo_feat_dim : nat;
  use_appearance_embedding : bool;
  num_images : option nat;
  appearance_embedding_dim : nat;
  contraction_type : ContractionType
}.

(** The defaults of the signature. *)
Definition default (box : point * point) : t := {|
  aabb := box;
  sigma := 1;
  f_init := "ones";
  f_transition_function := "relu";
  f_grid_resolution := 256;
  g_transition_function := "sigmoid";
  g_transition_alpha := 4;
  g_transition_alpha_increments := 0;
  occupancy_to_density_transformation_function := "exponential";
  density_multiplier := 1;
  geo_feat_dim := 15;
  use_appearance_embedding := false;
  num_images := None;
  appearance_embedding_dim := 32;
  contraction_type := UN_BOUNDED_SPHERE
|}.

(** The same arguments with other transition-function names. *)
Definition with_transitions (a : t) (f_name g_name : string) : t := {|
  aabb := aabb a;
  sigma := sigma a;
  f_init := f_init a;
  f_transition_function := f_name;
  f_grid_resolution := f_grid_resolution a;
  g_transition_function := g_name;
  g_transition_alpha := g_transition_alpha a;
  g_transition_alpha_increments := g_transition_alpha_increments a;
  occupancy_to_density_transformation_function :=
    occupancy_to_density_transformation_function a;
  density_multiplier := density_multiplier a;
  geo_feat_dim := geo_feat_dim a;
  use_appearance_embedding := use_appearance_embedding a;
  num_images := num_images a;
  appearance_embedding_dim := appearance_embedding_dim a;
  contraction_type := contraction_type a
|}.

(** The same arguments with another grid: initialisation mode,
    resolution and sigma. *)
Definition with_grid (a : t) (mode : string) (res : nat) (s : R) : t := {|
  aabb := aabb a;
  sigma := s;
  f_init := mode;
  f_transition_function := f_transition_function a;
  f_grid_resolution := res;
  g_transition_function := g_transition_function a;
  g_transition_alpha := g_transition_alpha a;
  g_transition_alpha_increments := g_transition_alpha_increments a;
  occupancy_to_density_transformation_function :=
    occupancy_to_density_transformation_function a;
  density_multiplier := density_multiplier a;
  geo_feat_dim := geo_feat_dim a;
  use_appearance_embedding := use_appearance_embedding a;
  num_images := num_images a;
  appearance_embedding_dim := appearance_embedding_dim a;
  contraction_type := contraction_type a
|}.
End Args.

Record TCNNGaussianNeRFField : Type := {
  aabb : point * point;
  geo_feat_dim : nat;
  contraction_type : ContractionType;
  use_appearance_embedding : bool;
  mlp_base : point -> list R;
  f : vol;
  f_transition_function : string;
  occupancy_to_density_transformation_function : string;
  sigma : R;
  gaussian_kernel : list R;
  g_transition_function : string;
  g_transition_alpha : R;
  g_transition_alpha_increments : R;
  density_multiplier : R
}.

Definition torch_full (D H W : nat) (c : R) : vol :=
  vbuild D H W (fun _ _ _ => c).

(** The learnable grid [self.f] built by [__init__]. *)
Definition init_grid `{Externals} (f_init : string) (res : nat) : vol :=
  if (f_init =? "ones")%string then torch_full res res res 1
  else if (f_init =? "zeros")%string then torch_full res res res 0
  else vmap (fun r => (1 / 2) * r + (1 / 2)) (vbuild res res res torch_rand).

(** [__init__]: the assertion on [num_images], the members the modelled
    methods read, and the kernel.  What depends on the machine (the import
    of tinycudann, the CUDA device) is not part of the model. *)
Definition init `{Externals} (a : Args.t) : result TCNNGaussianNeRFField :=
  _ <- (if Args.use_appearance_embedding a then
          match Args.num_images a with
          | Some _ => Ok tt
          | None => Raise AssertionError
          end
        else Ok tt) ;;
  let mlp := tcnn_network (1 + Args.geo_feat_dim a) in
  let grid := init_grid (Args.f_init a) (Args.f_grid_resolution a) in
  kernel <- make_gaussian_kernel (Args.sigma a) ;;
  Ok {| aabb := Args.aabb a;
        geo_feat_dim := Args.geo_feat_dim a;
        contraction_type := Args.contraction_type a;
        use_appearance_embedding := Args.use_appearance_embedding a;
        mlp_base := mlp;
        f := grid;
        f_transition_function := Args.f_transition_function a;
        occupancy_to_density_transformation_function :=
          Args.occupancy_to_density_transformation_function a;
        sigma := Args.sigma a;
        gaussian_kernel := kernel;
        g_transition_function := Args.g_transition_function a;
        g_transition_alpha := Args.g_transition_alpha a;
        g_transition_alpha_increments := Args.g_transition_alpha_increments a;
        density_multiplier := Args.density_multiplier a |}.

(** One turn of the loop [for i in range(3)]. *)
Definition blur_step (k : list R) (vol_in : vol) : result vol :=
  let vol_in := permute_01423 vol_in in
  conv3d vol_in (k1d_of k) ((length k / 2)%nat, O, O).

Definition apply_3d_gaussian_blur
    (self : TCNNGaussianNeRFField) (input_grid : vol) : result vol :=
  let k := gaussian_kernel self in
  fold_left (fun acc (_ : nat) => vol_in <- acc ;; blur_step k vol_in)
            (seq 0 3) (Ok input_grid).

(** The [if ... == "relu": ... elif ... == "sigmoid": ...] statement of
    [get_certified_radius] and [get_density]: the local [smoothed_grid]
    stays unassigned when neither test holds. *)
Definition assign_smoothed_grid
    (self : TCNNGaussianNeRFField) : result (option vol) :=
  if (f_transition_function self =? "relu")%string then
    g <- apply_3d_gaussian_blur self (vmap relu (f self)) ;; Ok (Some g)
  else if (f_transition_function self =? "sigmoid")%string then
    g <- apply_3d_gaussian_blur self (vmap sigmoid (f self)) ;; Ok (Some g)
  else Ok None.

Definition cartesian_product (xs ys zs : list R) : list point :=
  flat_map (fun x => flat_map (fun y => map (fun z => (x, y, z)) zs) ys) xs.

(** The lattice [positions] of [get_certified_radius]. *)
Definition lattice (self : TCNNGaussianNeRFField) : list point :=
  let space_discrete_sample_indexes :=
    linspace (-1) 1 (2 * dimW (f self)) in
  cartesian_product space_discrete_sample_indexes
                    space_discrete_sample_indexes
                    space_discrete_sample_indexes.

(** The tensor handed to [m.icdf] on the [radii] line. *)
Definition radii_icdf_input (smoothed_grid : vol) : vol :=
  interpolate smoothed_grid 2.

(** [output_aux] as a computation on the positions. *)
Definition output_aux `{Externals}
    (self : TCNNGaussianNeRFField) (smoothed_grid : vol)
    (positions : list point) : list R :=
  map (fun o => sigma self * icdf o) (grid_sample smoothed_grid positions).

Definition eikonal_of (sdf_grads : list point) : R :=
  mean (map (fun g => (norm2 g - 1) ^ 2) sdf_grads).

Definition get_certified_radius `{Externals}
    (self : TCNNGaussianNeRFField) : result (vol * R) :=
  let positions := lattice self in
  assigned <- assign_smoothed_grid self ;;
  smoothed_grid <- read_local "smoothed_grid" assigned ;;
  let radii :=
    vmap (fun o => sigma self * icdf o) (radii_icdf_input smoothed_grid) in
  let out := output_aux self smoothed_grid positions in
  let sdf_grads :=
    autograd_grad (output_aux self smoothed_grid) positions
                  (map (fun _ => 1) out) in
  let eikonal_loss := eikonal_of sdf_grads in
  Ok (radii, eikonal_loss).

(** [RaySamples], as the positions [frustums.get_positions()] returns. *)
Record RaySamples : Type := { frustums_get_positions : list point }.

(** The g-transition of [get_density]. *)
Definition arg_maxed_smoothed_grid
    (self : TCNNGaussianNeRFField) (assigned : option vol) : result vol :=
  if (g_transition_function self =? "sigmoid")%string then
    smoothed_grid <- read_local "smoothed_grid" assigned ;;
    Ok (vmap (fun s => sigmoid (g_transition_alpha self * (s - 1 / 2)))
             smoothed_grid)
  else
    read_local "smoothed_grid" assigned.

(** [t.view(shape..., -1)] on the rows of a tensor whose leading shape has
    as many elements as there are rows: with no row the size of the last
    axis cannot be inferred (the message names the requested shape, here
    that of a flat empty batch). *)
Definition view_rows {A : Type} (rows : list A) : result (list A) :=
  match rows with
  | [] => Raise (RuntimeError
                   "cannot reshape tensor of 0 elements into shape [0, -1] because the unspecified dimension size -1 can be any value and is ambiguous")
  | _ => Ok rows
  end.

(** Returns the densities (an N x 1 column, as a list) and
    [base_mlp_out]. *)
Definition get_density `{Externals}
    (self : TCNNGaussianNeRFField) (ray_samples : RaySamples)
  : result (list R * list (list R)) :=
  let positions := frustums_get_positions ray_samples in
  let positions_flat :=
    map (contract (aabb self) (contraction_type self)) positions in
  h <- view_rows (map (mlp_base self) positions_flat) ;;
  let base_mlp_out := map (fun o => firstn (geo_feat_dim self) (skipn 1 o)) h in
  let positions_rescaled :=
    map (fun '(x, y, z) => (x * 2 - 1, y * 2 - 1, z * 2 - 1)) positions_flat in
  assigned <- assign_smoothed_grid self ;;
  grid <- arg_maxed_smoothed_grid self assigned ;;
  let density_before_activation := grid_sample grid positions_rescaled in
  let density :=
    map (fun d => density_multiplier self * trunc_exp d)
        density_before_activation in
  Ok (density, base_mlp_out).

(** Modelled from the spec: [density_fn] of the base class [Field], which
    is not among the sources; section 6 gives
    [get_opacity(points, step_size) -> density * step_size], the density
    being the one of [get_density] at the points. *)
Definition density_fn `{Externals}
    (self : TCNNGaussianNeRFField) (positions : list point)
  : result (list R) :=
  r <- get_density self {| frustums_get_positions := positions |} ;;
  Ok (fst r).

Definition get_opacity `{Externals}
    (self : TCNNGaussianNeRFField) (positions : list point) (step_size : R)
  : result (list R) :=
  density <- density_fn self positions ;;
  Ok (map (fun d => d * step_size) density).

(** The field with other transition-function names. *)
Definition set_transitions (fld : TCNNGaussianNeRFField)
    (f_name g_name : string) : TCNNGaussianNeRFField :=
  {| aabb := aabb fld;
     geo_feat_dim := geo_feat_dim fld;
     contraction_type := contraction_type fld;
     use_appearance_embedding := use_appearance_embedding fld;
     mlp_base := mlp_base fld;
     f := f fld;
     f_transition_function := f_name;
     occupancy_to_density_transformation_function :=
       occupancy_to_density_transformation_function fld;
     sigma := sigma fld;
     gaussian_kernel := gaussian_kernel fld;
     g_transition_function := g_name;
     g_transition_alpha := g_transition_alpha fld;
     g_transition_alpha_increments := g_transition_alpha_increments fld;
     density_multiplier := density_multiplier fld |}.

(** ** gaussian_NeRF.py *)

(** The fields of [GaussianNeRFModelConfig] that the modelled methods
    read. *)
Module Config.
Record t : Type := {
  f_init : string;
  f_transition_function : string;
  f_grid_resolution : nat;
  sigma : R;
  g_transition_function : string;
  g_transition_alpha : R;
  g_transition_alpha_increments : R;
  contraction_type : ContractionType;
  render_step_size : R;
  use_appearance_embedding : bool
}.

Definition default : t := {|
  f_init := "ones";
  f_transition_function := "sigmoid";
  f_grid_resolution := 256;
  sigma := 1;
  g_transition_function := "sigmoid";
  g_transition_alpha := 4;
  g_transition_alpha_increments := 0;
  contraction_type := UN_BOUNDED_SPHERE;
  render_step_size := 1 / 100;
  use_appearance_embedding := false
|}.
End Config.

Record GaussianNeRFModel : Type := {
  config : Config.t;
  field : TCNNGaussianNeRFField;
  occupancy_grid : OccupancyGrid
}.

Definition set_field (self : GaussianNeRFModel) (fld : TCNNGaussianNeRFField)
  : GaussianNeRFModel :=
  {| config := config self; field := fld;
     occupancy_grid := occupancy_grid self |}.

Definition set_g_transition_alpha (fld : TCNNGaussianNeRFField) (alpha : R)
  : TCNNGaussianNeRFField :=
  {| aabb := aabb fld;
     geo_feat_dim := geo_feat_dim fld;
     contraction_type := contraction_type fld;
     use_appearance_embedding := use_appearance_embedding fld;
     mlp_base := mlp_base fld;
     f := f fld;
     f_transition_function := f_transition_function fld;
     occupancy_to_density_transformation_function :=
       occupancy_to_density_transformation_function fld;
     sigma := sigma fld;
     gaussian_kernel := gaussian_kernel fld;
     g_transition_function := g_transition_function fld;
     g_transition_alpha := alpha;
     g_transition_alpha_increments := g_transition_alpha_increments fld;
     density_multiplier := density_multiplier fld |}.

(** The optimizer writes the trainable parameters: the grid and the
    weights of the base network. *)
Definition set_parameters (fld : TCNNGaussianNeRFField)
    (grid : vol) (mlp : point -> list R) : TCNNGaussianNeRFField :=
  {| aabb := aabb fld;
     geo_feat_dim := geo_feat_dim fld;
     contraction_type := contraction_type fld;
     use_appearance_embedding := use_appearance_embedding fld;
     mlp_base := mlp;
     f := grid;
     f_transition_function := f_transition_function fld;
     occupancy_to_density_transformation_function :=
       occupancy_to_density_transformation_function fld;
     sigma := sigma fld;
     gaussian_kernel := gaussian_kernel fld;
     g_transition_function := g_transition_function fld;
     g_transition_alpha := g_transition_alpha fld;
     g_transition_alpha_increments := g_transition_alpha_increments fld;
     density_multiplier := density_multiplier fld |}.

(** [populate_modules]: the field is built from the configuration; the
    remaining arguments keep the defaults of [__init__]. *)
Definition populate_modules `{Externals}
    (cfg : Config.t) (scene_box_aabb : point * point)
    (num_train_data : option nat) (occ : OccupancyGrid)
  : result GaussianNeRFModel :=
  let d := Args.default scene_box_aabb in
  fld <- init {| Args.aabb := scene_box_aabb;
                 Args.sigma := Config.sigma cfg;
                 Args.f_init := Config.f_init cfg;
                 Args.f_transition_function :=
                   Config.f_transition_function cfg;
                 Args.f_grid_resolution := Config.f_grid_resolution cfg;
                 Args.g_transition_function :=
                   Config.g_transition_function cfg;
                 Args.g_transition_alpha := Config.g_transition_alpha cfg;
                 Args.g_transition_alpha_increments :=
                   Config.g_transition_alpha_increments cfg;
                 Args.occupancy_to_density_transformation_function :=
                   Args.occupancy_to_density_transformation_function d;
                 Args.density_multiplier := Args.density_multiplier d;
                 Args.geo_feat_dim := Args.geo_feat_dim d;
                 Args.use_appearance_embedding :=
                   Config.use_appearance_embedding cfg;
                 Args.num_images := num_train_data;
                 Args.appearance_embedding_dim :=
                   Args.appearance_embedding_dim d;
                 Args.contraction_type := Config.contraction_type cfg |} ;;
  Ok {| config := cfg; field := fld; occupancy_grid := occ |}.

Inductive TrainingCallbackLocation : Type :=
| BEFORE_TRAIN_ITERATION
| AFTER_TRAIN_ITERATION.

Definition location_eqb (a b : TrainingCallbackLocation) : bool :=
  match a, b with
  | BEFORE_TRAIN_ITERATION, BEFORE_TRAIN_ITERATION => true
  | AFTER_TRAIN_ITERATION, AFTER_TRAIN_ITERATION => true
  | _, _ => false
  end.

Record TrainingCallback : Type := {
  where_to_run : list TrainingCallbackLocation;
  update_every_num_iters : nat;
  func : nat -> GaussianNeRFModel -> result GaussianNeRFModel
}.

Definition update_occupancy_grid `{Externals}
    (step : nat) (self : GaussianNeRFModel) : result GaussianNeRFModel :=
  occ <- every_n_step step
           (fun x => get_opacity (field self) x
                                 (Config.render_step_size (config self)))
           (occupancy_grid self) ;;
  Ok {| config := config self; field := field self; occupancy_grid := occ |}.

Definition update_alpha_value
    (step : nat) (self : GaussianNeRFModel) : result GaussianNeRFModel :=
  Ok (set_field self
        (set_g_transition_alpha (field self)
           (g_transition_alpha (field self)
            + g_transition_alpha_increments (field self)))).

Definition get_training_callbacks `{Externals} : list TrainingCallback :=
  [ {| where_to_run := [BEFORE_TRAIN_ITERATION];
       update_every_num_iters := 1;
       func := update_occupancy_grid |};
    {| where_to_run := [BEFORE_TRAIN_ITERATION];
       update_every_num_iters := 1;
       func := update_alpha_value |} ].

(** Modelled from the spec: the dispatch of a [TrainingCallback] by the
    engine, which is not among the sources; a callback registered for a
    location with [update_every_num_iters = n] runs at that location on the
    steps that are multiples of n (sections 3 and 4.5: "incremented by a
    fixed step at the start of every training iteration"). *)
Definition run_callback_at_location
    (cb : TrainingCallback) (step : nat) (location : TrainingCallbackLocation)
    (m : GaussianNeRFModel) : result GaussianNeRFModel :=
  if existsb (location_eqb location) (where_to_run cb) then
    if (step mod update_every_num_iters cb =? 0)%nat then func cb step m
    else Ok m
  else Ok m.

Definition run_callbacks
    (cbs : list TrainingCallback) (step : nat)
    (location : TrainingCallbackLocation) (m : GaussianNeRFModel)
  : result GaussianNeRFModel :=
  fold_left (fun acc cb => m' <- acc ;; run_callback_at_location cb step location m')
            cbs (Ok m).

(** Modelled from the spec: the forward pass, loss and optimizer step of
    one training iteration, which are not among the sources; by section 3
    the grid is "mutated only by gradient-based optimization", so the step
    yields new values of the trainable parameters (the grid and the base
    network) and nothing else. *)
Class Trainer : Type := {
  train_iteration :
    nat -> GaussianNeRFModel -> result (vol * (point -> list R))
}.

(** Modelled from the spec: the training loop of section 4.5, which is not
    among the sources; every iteration runs the callbacks registered before
    the iteration, in their order, then the iteration itself, then the
    callbacks registered after it. *)
Fixpoint train `{Externals} `{Trainer}
    (n : nat) (step : nat) (m : GaussianNeRFModel)
  : result GaussianNeRFModel :=
  match n with
  | O => Ok m
  | S n' =>
      m1 <- run_callbacks get_training_callbacks step BEFORE_TRAIN_ITERATION m ;;
      p <- train_iteration step m1 ;;
      let m2 := set_field m1 (set_parameters (field m1) (fst p) (snd p)) in
      m3 <- run_callbacks get_training_callbacks step AFTER_TRAIN_ITERATION m2 ;;
      train n' (S step) m3
  end.

(** The entries of [outputs] and [batch] read by
    [get_image_metrics_and_images]. *)
Record Outputs : Type := {
  out_rgb : image;
  out_accumulation : image;
  out_depth : image;
  out_alive_ray_mask : image
}.

Record Batch : Type := { batch_image : image }.

(** [(r - min_scalar) / (max_scalar - min_scalar)], clamped to [0, 1] and
    given a trailing channel axis. *)
Definition heatmap (slice : list (list R)) (min_scalar max_scalar : R) : image :=
  map (map (fun r =>
              [clamp ((r - min_scalar) / (max_scalar - min_scalar)) 0 1]))
      slice.

(** The body of the [try] block: the three locals it assigns.  Only the
    call of [get_certified_radius] can raise: [radii] is never [None] and
    the index [f.shape[-1]] lies within its 2R entries. *)
Definition try_body `{Externals}
    (self : GaussianNeRFModel) : result (image * image * image) :=
  r <- get_certified_radius (field self) ;;
  let radii := fst r in
  let n := dimW (f (field self)) in
  let min_scalar := -4 * sigma (field self) in
  let max_scalar := 4 * sigma (field self) in
  let radiix := nth n radii [] in
  let radiix_heatmap := heatmap radiix min_scalar max_scalar in
  let radiiy := map (fun pl => nth n pl []) radii in
  let radiiy_heatmap := heatmap radiiy min_scalar max_scalar in
  let radiiz := map (map (fun row => nth n row 0)) radii in
  let radiiz_heatmap := heatmap radiiz min_scalar max_scalar in
  Ok (radiix_heatmap, radiiy_heatmap, radiiz_heatmap).

(** [torch.cat([a, b], dim=1)] on images. *)
Definition cat_dim1 (a b : image) : image :=
  map (fun rows => fst rows ++ snd rows) (combine a b).

Inductive value : Type :=
| VFloat (r : R)
| VImage (i : image).

(** The function returns what it printed and either the two
    dictionaries or the exception that ended it.  The metrics are external
    functions of the image and the prediction (the source moves the channel
    axis to the front before it calls them). *)
Definition get_image_metrics_and_images `{Externals}
    (self : GaussianNeRFModel) (outputs : Outputs) (batch : Batch)
  : list string * result (list (string * value) * list (string * value)) :=
  let image_ := batch_image batch in
  let rgb := out_rgb outputs in
  let acc := apply_colormap (out_accumulation outputs) in
  let depth :=
    apply_depth_colormap (out_depth outputs) (out_accumulation outputs) in
  let alive_ray_mask := apply_colormap (out_alive_ray_mask outputs) in
  (* try: ... except: print(...) *)
  let '(stdout, locals) :=
    match try_body self with
    | Ok (hx, hy, hz) => ([], Ok (Some hx, Some hy, Some hz))
    | Raise _ => (["no certified radii being calculated"%string],
                  Ok (None, None, None))
    | Nan => ([], Nan)
    end in
  let combined_rgb := cat_dim1 image_ rgb in
  let combined_acc := acc in
  let combined_depth := depth in
  let combined_alive_ray_mask := alive_ray_mask in
  let metrics_dict :=
    [("psnr"%string, VFloat (psnr image_ rgb));
     ("ssim"%string, VFloat (ssim image_ rgb));
     ("lpips"%string, VFloat (lpips image_ rgb))] in
  (stdout,
   assigned <- locals ;;
   let '(radiix_heatmap, radiiy_heatmap, radiiz_heatmap) := assigned in
   hx <- read_local "radiix_heatmap" radiix_heatmap ;;
   hy <- read_local "radiiy_heatmap" radiiy_heatmap ;;
   hz <- read_local "radiiz_heatmap" radiiz_heatmap ;;
   Ok (metrics_dict,
       [("img"%string, VImage combined_rgb);
        ("accumulation"%string, VImage combined_acc);
        ("depth"%string, VImage combined_depth);
        ("alive_ray_mask"%string, VImage combined_alive_ray_mask);
        ("radiix_heatmap"%string, VImage hx);
        ("radiiy_heatmap"%string, VImage hy);
        ("radiiz_heatmap"%string, VImage hz)])).

(** ** Definitions that follow the words of the specification *)

(** The values exp(-(t/sigma)^2/2) of the Gaussian bell at the points
    [ts], in exact arithmetic. *)
Definition gauss_values (sigma : R) (ts : list R) : list R :=
  map (fun t => exp (- (t / sigma) ^ 2 / 2)) ts.

(** "Normalized samples of a zero-mean Gaussian density over a symmetric
    integer support": the density of standard deviation sigma sampled at the
    integers of [support]. *)
Definition spec_gaussian_samples (sigma : R) (support : list Z) : list R :=
  let gauss := gauss_values sigma (map IZR support) in
  map (fun g => g / Rsum gauss) gauss.

(** "A direct 3D convolution with the outer product of the 1D kernel":
    the K x K x K weight and the convolution of the zero-padded input with
    it. *)
Definition spec_outer_product (k : list R) : vol :=
  vbuild (length k) (length k) (length k)
         (fun i j l => nth i k 0 * nth j k 0 * nth l k 0).

Definition spec_conv3d_full (k : list R) (x : vol) : result vol :=
  let p := (length k / 2)%nat in
  conv3d x (spec_outer_product k) (p, p, p).

(** "Values of the smoothed field equal to 0 or 1 are clamped to an
    epsilon-bounded value strictly inside (0,1) before the inverse CDF is
    applied": every value that [get_certified_radius] hands to [icdf] lies
    strictly between 0 and 1. *)
Definition spec_icdf_inputs_interior (self : TCNNGaussianNeRFField) : Prop :=
  forall smoothed_grid,
    assign_smoothed_grid self = Ok (Some smoothed_grid) ->
    vall (fun o => 0 < o < 1) (radii_icdf_input smoothed_grid) /\
    Forall (fun o => 0 < o < 1) (grid_sample smoothed_grid (lattice self)).

(** "The scalar sampled from the transitioned field at each normalized
    point is transformed via sigma * icdf(o) before the exponential
    activation and density_multiplier are applied": [get_density] with that
    transform on the sampled values. *)
Definition spec_get_density `{Externals}
    (self : TCNNGaussianNeRFField) (ray_samples : RaySamples)
  : result (list R * list (list R)) :=
  let positions := frustums_get_positions ray_samples in
  let positions_flat :=
    map (contract (aabb self) (contraction_type self)) positions in
  h <- view_rows (map (mlp_base self) positions_flat) ;;
  let base_mlp_out := map (fun o => firstn (geo_feat_dim self) (skipn 1 o)) h in
  let positions_rescaled :=
    map (fun '(x, y, z) => (x * 2 - 1, y * 2 - 1, z * 2 - 1)) positions_flat in
  assigned <- assign_smoothed_grid self ;;
  grid <- arg_maxed_smoothed_grid self assigned ;;
  let sampled := grid_sample grid positions_rescaled in
  let density :=
    map (fun o => density_multiplier self * trunc_exp (sigma self * icdf o))
        sampled in
  Ok (density, base_mlp_out).

(** "The radius/eikonal field and the density field are computed from two
    different fields": the grid that [get_density] samples is not the grid
    that [get_certified_radius] uses. *)
Definition spec_fields_differ (self : TCNNGaussianNeRFField) : Prop :=
  forall smoothed_grid density_grid,
    assign_smoothed_grid self = Ok (Some smoothed_grid) ->
    arg_maxed_smoothed_grid self (Some smoothed_grid) = Ok density_grid ->
    density_grid <> smoothed_grid.

(** ** Auxiliary definitions of the proofs *)

(** The sum of [gauss] is not 0: from sigma = 2/5 on the centre sample
    is 1; below, the single sample exp(-1/(2 sigma^2)) must not
    underflow. *)
Definition gauss_survives (sigma : R) : Prop :=
  2 / 5 <= sigma \/ 1 / (2 * sigma ^ 2) <= exp_underflow.

(** The externals with another inverse CDF. *)
Definition with_icdf (E : Externals) (ic : R -> R) : Externals := {|
  contract := @contract E;
  every_n_step := @every_n_step E;
  tcnn_network := @tcnn_network E;
  trunc_exp := @trunc_exp E;
  icdf := ic;
  autograd_grad := @autograd_grad E;
  torch_rand := @torch_rand E;
  apply_colormap := @apply_colormap E;
  apply_depth_colormap := @apply_depth_colormap E;
  psnr := @psnr E;
  ssim := @ssim E;
  lpips := @lpips E
|}.

(** The grid that [get_density] samples, given the smoothed grid. *)
Definition density_grid_of
    (self : TCNNGaussianNeRFField) (smoothed_grid : vol) : vol :=
  if (g_transition_function self =? "sigmoid")%string then
    vmap (fun s => sigmoid (g_transition_alpha self * (s - 1 / 2)))
         smoothed_grid
  else smoothed_grid.

(** A sample position as [get_density] hands it to [grid_sample]. *)
Definition rescaled_position `{Externals}
    (self : TCNNGaussianNeRFField) (p : point) : point :=
  let '(x, y, z) := contract (aabb self) (contraction_type self) p in
  (x * 2 - 1, y * 2 - 1, z * 2 - 1).


(** A sequence read through a zero padding of width [p] on the left. *)
Definition shifted (p : nat) (g : nat -> R) (t : nat) : R :=
  if (p <=? t)%nat then g (t - p)%nat else 0.

(** The value at (a, b, c) of the convolution of the zero-padded volume
    with the outer product of [k]. *)
Definition full_sum (k : list R) (x : vol) (a b c : nat) : R :=
  sum_n (length k) (fun i => sum_n (length k) (fun j => sum_n (length k) (fun l =>
    nth i k 0 * nth j k 0 * nth l k 0
    * padded x (length k / 2) (length k / 2) (length k / 2)
             (a + i) (b + j) (c + l)))).

(** ** Concrete inputs of the examples *)

Definition unit_box : point * point := ((0, 0, 0), (1, 1, 1)).

(** An instance of the external collaborators: the exponential as
    activation, a centred affine map in place of the inverse CDF, constant
    draws of 1/4, and collaborators that leave their input unchanged. *)
Definition example_externals : Externals := {|
  contract := fun _ _ p => p;
  every_n_step := fun _ _ occ => Ok occ;
  tcnn_network := fun n _ => repeat 0 n;
  trunc_exp := exp;
  icdf := fun o => o - 1 / 2;
  autograd_grad := fun _ positions _ => map (fun _ => (0, 0, 0)) positions;
  torch_rand := fun _ _ _ => 1 / 4;
  apply_colormap := fun i => i;
  apply_depth_colormap := fun d _ => d;
  psnr := fun _ _ => 0;
  ssim := fun _ _ => 0;
  lpips := fun _ _ => 0
|}.

(** The default arguments with [f_transition_function="tanh"]. *)
Definition tanh_args : Args.t :=
  Args.with_transitions (Args.default unit_box) "tanh" "sigmoid".

(** A 1 x 1 x 1 grid of zeros, relu, sigma = 1. *)
Definition zeros_args : Args.t :=
  Args.with_grid (Args.default unit_box) "zeros" 1 1.

(** A 1 x 1 x 1 grid of zeros, both transitions "sigmoid", sigma = 1/5. *)
Definition half_args : Args.t :=
  Args.with_transitions
    (Args.with_grid (Args.default unit_box) "zeros" 1 (1 / 5))
    "sigmoid" "sigmoid".

Definition one_ray : RaySamples :=
  {| frustums_get_positions := [(1 / 2, 1 / 2, 1 / 2)] |}.

(** A field built directly from a grid, a kernel and the two names. *)
Definition field_of (grid : vol) (kernel : list R) (s : R)
    (f_name g_name : string) (alpha : R) : TCNNGaussianNeRFField :=
  {| aabb := unit_box;
     geo_feat_dim := 15;
     contraction_type := UN_BOUNDED_SPHERE;
     use_appearance_embedding := false;
     mlp_base := fun _ => repeat 0 16;
     f := grid;
     f_transition_function := f_name;
     occupancy_to_density_transformation_function := "exponential";
     sigma := s;
     gaussian_kernel := kernel;
     g_transition_function := g_name;
     g_transition_alpha := alpha;
     g_transition_alpha_increments := 0;
     density_multiplier := 1 |}.

(** The field of [half_args], and its sibling with a grid of ones under
    "relu". *)
Definition half_field : TCNNGaussianNeRFField :=
  field_of (torch_full 1 1 1 0) [1] (1 / 5) "sigmoid" "sigmoid" 4.

Definition ones_field : TCNNGaussianNeRFField :=
  field_of (torch_full 1 1 1 1) [1] (1 / 5) "relu" "sigmoid" 4.



(** ** Predicates of the further properties *)

(** Every coordinate of the point lies in [[lo, hi]]. *)
Definition point_in (lo hi : R) (p : point) : Prop :=
  let '(x, y, z) := p in
  lo <= x <= hi /\ lo <= y <= hi /\ lo <= z <= hi.




(** ** gaussian_NeRF.py: the loss *)

(** [t[mask]] with a boolean mask over the first axis: the rows whose mask
    entry is true; [None] stands for the [IndexError] that torch raises
    when the mask and the tensor differ in length. *)
Definition boolean_index {A : Type} (rows : list A) (mask : list bool)
  : option (list A) :=
  if (length rows =? length mask)%nat
  then Some (map fst (filter snd (combine rows mask)))
  else None.

(** The squared error of one pixel, summed over its three channels. *)
Definition pixel_sq_err (pq : point * point) : R :=
  let '((r1, g1, b1), (r2, g2, b2)) := pq in
  (r1 - r2) ^ 2 + (g1 - g2) ^ 2 + (b1 - b2) ^ 2.

(** [torch.nn.MSELoss()] on two K x 3 tensors: the mean of the squared
    differences over all 3 K elements.  For K = 0 torch returns nan, which
    the real numbers do not have: the value is meaningful for K > 0 only. *)
Definition mse_loss (a b : list point) : R :=
  Rsum (map pixel_sq_err (combine a b)) / INR (3 * length a).

(** [get_loss_dict], on the batch image, [outputs["rgb"]] and
    [outputs["alive_ray_mask"]], each with one row per ray. *)
Definition get_loss_dict
    (image_ rgb : list point) (alive_ray_mask : list bool)
  : option (list (string * R)) :=
  match boolean_index image_ alive_ray_mask,
        boolean_index rgb alive_ray_mask with
  | Some image_alive, Some rgb_alive =>
      let rgb_loss := mse_loss image_alive rgb_alive in
      Some [("rgb_loss"%string, rgb_loss)]
  | _, _ => None
  end.

(** The two lists agree on the rows whose mask entry is true. *)
Definition agree_on_alive (mask : list bool) (xs ys : list point) : Prop :=
  forall i, nth i mask false = true ->
            nth i xs (0, 0, 0) = nth i ys (0, 0, 0).

(* ================================================================== *)
(** * Properties *)

Lemma Int_part_IZR (z : Z) (r : R) :
  IZR z <= r < IZR z + 1 -> Int_part r = z.
Proof.
  intros [H1 H2]. symmetry. apply Int_part_spec. lra.
Qed.

Lemma kernel_size_1 : kernel_size 1 = 5%Z.
Proof.
  unfold kernel_size, py_int.
  destruct (Rle_dec 0 (1 * 5)) as [_|n]; [|exfalso; apply n; lra].
  rewrite (Int_part_IZR 5) by lra. reflexivity.
Qed.


Lemma Ok_inj {A : Type} (a b : A) : Ok a = Ok b -> a = b.
Proof. intros H. now inversion H. Qed.

(** ** Sums and tabulated lists *)

Lemma nth_map_seq {A : Type} (g : nat -> A) (n i : nat) (d : A) :
  (i < n)%nat -> nth i (map g (seq 0 n)) d = g i.
Proof.
  intros Hi.
  rewrite (nth_indep _ d (g 0%nat)) by (rewrite length_map, length_seq; exact Hi).
  rewrite (map_nth g (seq 0 n) 0%nat i), seq_nth by exact Hi.
  reflexivity.
Qed.

Lemma Rsum_app (l1 l2 : list R) : Rsum (l1 ++ l2) = Rsum l1 + Rsum l2.
Proof.
  induction l1 as [|a l1 IH]; simpl; [|rewrite IH]; lra.
Qed.

Lemma Rsum_map_div (s : R) (l : list R) :
  Rsum (map (fun g => g / s) l) = Rsum l / s.
Proof.
  induction l as [|a l IH]; simpl.
  - unfold Rdiv. ring.
  - rewrite IH. unfold Rdiv. ring.
Qed.

Lemma Rsum_pos (l : list R) :
  l <> [] -> Forall (fun x => 0 < x) l -> 0 < Rsum l.
Proof.
  intros Hne Hall. induction Hall as [|a l Ha Hl IH]; [congruence|].
  simpl. destruct l as [|b l].
  - simpl. lra.
  - assert (0 < Rsum (b :: l)) by (apply IH; discriminate). lra.
Qed.

Lemma Rsum_normalized (l : list R) :
  Rsum l <> 0 -> Rsum (map (fun g => g / Rsum l) l) = 1.
Proof.
  intros Hs. rewrite Rsum_map_div. now field.
Qed.

Lemma linspace_length (a b : R) (n : nat) : length (linspace a b n) = n.
Proof.
  destruct n as [|[|n]]; simpl; try reflexivity.
  now rewrite length_map, length_seq.
Qed.

Lemma linspace_nth (a b : R) (n i : nat) :
  (2 <= n)%nat -> (i < n)%nat ->
  nth i (linspace a b n) 0 = a + INR i * ((b - a) / (INR n - 1)).
Proof.
  intros Hn Hi. destruct n as [|[|n]]; try lia.
  unfold linspace. now rewrite nth_map_seq.
Qed.

(** ** The Gaussian kernel *)

Lemma py_int_nonneg (x : R) : 0 <= x -> py_int x = Int_part x.
Proof.
  intros Hx. unfold py_int. destruct (Rle_dec 0 x); [reflexivity|contradiction].
Qed.

Lemma Int_part_nonneg (x : R) : 0 <= x -> (0 <= Int_part x)%Z.
Proof.
  intros Hx. destruct (base_Int_part x) as [_ H2].
  assert (H : -1 < IZR (Int_part x)) by lra.
  apply lt_IZR in H. lia.
Qed.

Lemma kernel_size_odd (sigma : R) :
  0 < sigma ->
  (1 <= kernel_size sigma)%Z /\ Z.odd (kernel_size sigma) = true /\
  (kernel_size sigma = Int_part (sigma * 5) \/
   kernel_size sigma = (Int_part (sigma * 5) + 1)%Z).
Proof.
  intros Hs. unfold kernel_size. rewrite py_int_nonneg by lra.
  pose proof (Int_part_nonneg (sigma * 5) ltac:(lra)) as Hn.
  set (n := Int_part (sigma * 5)) in *.
  destruct (Z.eqb_spec (n mod 2) 0) as [He|He].
  - repeat split; [lia| |now right].
    rewrite Z.odd_add, <- Z.negb_even. simpl.
    rewrite (Zeven_mod n). apply Z.eqb_eq in He. rewrite He. reflexivity.
  - assert (Hodd : Z.odd n = true).
    { rewrite <- Z.negb_even, Zeven_mod.
      apply Z.eqb_neq in He. now rewrite He. }
    repeat split; [|exact Hodd|now left].
    destruct (Z.eq_dec n 0) as [->|]; [discriminate|lia].
Qed.

Lemma odd_support_ends (ks : Z) :
  Z.odd ks = true ->
  IZR (- ks / 2) = - (IZR ks + 1) / 2 /\ IZR (ks / 2 + 1) = (IZR ks + 1) / 2.
Proof.
  intros Hodd. apply Z.odd_spec in Hodd. destruct Hodd as [m ->].
  replace (- (2 * m + 1) / 2)%Z with (- m - 1)%Z
    by (Z.to_euclidean_division_equations; lia).
  replace ((2 * m + 1) / 2 + 1)%Z with (m + 1)%Z
    by (Z.to_euclidean_division_equations; lia).
  rewrite minus_IZR, opp_IZR, !plus_IZR, mult_IZR. split; lra.
Qed.

Lemma INR_to_nat (z : Z) : (0 <= z)%Z -> INR (Z.to_nat z) = IZR z.
Proof.
  intros Hz. rewrite INR_IZR_INZ, Z2Nat.id by exact Hz. reflexivity.
Qed.

Lemma exp_map_pos (g : R -> R) (l : list R) :
  Forall (fun x => 0 < x) (map (fun t => exp (g t)) l).
Proof.
  apply Forall_forall. intros x Hx. apply in_map_iff in Hx.
  destruct Hx as [t [<- _]]. apply exp_pos.
Qed.

Lemma kernel_support_length (ks : Z) :
  length (kernel_support ks) = Z.to_nat ks.
Proof. apply linspace_length. Qed.

Lemma kernel_support_nth (ks : Z) (i : nat) :
  Z.odd ks = true -> (3 <= ks)%Z -> (i < Z.to_nat ks)%nat ->
  nth i (kernel_support ks) 0 =
  (IZR ks + 1) / (IZR ks - 1) * (INR i - (IZR ks - 1) / 2).
Proof.
  intros Hodd Hks Hi. unfold kernel_support.
  rewrite linspace_nth by lia.
  destruct (odd_support_ends ks Hodd) as [-> ->].
  rewrite INR_to_nat by lia.
  assert (3 <= IZR ks) by (apply IZR_le in Hks; exact Hks).
  field. lra.
Qed.

Lemma kernel_support_one : kernel_support 1 = [-1].
Proof. reflexivity. Qed.

Lemma kernel_support_5 : kernel_support 5 = [-3; -3 / 2; 0; 3 / 2; 3].
Proof.
  unfold kernel_support, linspace.
  change (- (5) / 2)%Z with (-3)%Z. change (5 / 2 + 1)%Z with 3%Z.
  simpl. repeat (f_equal; try lra).
Qed.

Lemma kernel_size_small (sigma : R) :
  0 < sigma < 2 / 5 -> kernel_size sigma = 1%Z.
Proof.
  intros [H0 H1]. unfold kernel_size. rewrite py_int_nonneg by lra.
  destruct (base_Int_part (sigma * 5)) as [Hlo Hhi].
  pose proof (Int_part_nonneg (sigma * 5) ltac:(lra)) as Hn.
  assert (Hlt : IZR (Int_part (sigma * 5)) < 2) by lra.
  apply lt_IZR in Hlt.
  assert (Hcase : Int_part (sigma * 5) = 0%Z \/ Int_part (sigma * 5) = 1%Z)
    by lia.
  destruct Hcase as [-> | ->]; reflexivity.
Qed.

Lemma kernel_size_large (sigma : R) :
  2 / 5 <= sigma -> (3 <= kernel_size sigma)%Z.
Proof.
  intros Hs. unfold kernel_size. rewrite py_int_nonneg by lra.
  destruct (base_Int_part (sigma * 5)) as [Hlo Hhi].
  assert (Hgt : 1 < IZR (Int_part (sigma * 5))) by lra.
  apply lt_IZR in Hgt.
  destruct (Z.eqb_spec (Int_part (sigma * 5) mod 2) 0) as [He|He]; [lia|].
  assert (Int_part (sigma * 5) <> 2%Z) by (intros E; rewrite E in He; now apply He).
  lia.
Qed.


Lemma nth_map_in (g : R -> R) (l : list R) (i : nat) :
  (i < length l)%nat -> nth i (map g l) 0 = g (nth i l 0).
Proof.
  intros Hi. rewrite (nth_indep (map g l) 0 (g 0)) by (now rewrite length_map).
  apply map_nth.
Qed.

(** ** Underflow of the exponential *)

Lemma exp_underflow_large : 75 < exp_underflow.
Proof.
  unfold exp_underflow. pose proof ln_lt_2. lra.
Qed.

Lemma torch_exp_exact (x : R) : - exp_underflow <= x -> torch_exp x = exp x.
Proof.
  intros Hx. unfold torch_exp.
  destruct (Rlt_dec x (- exp_underflow)); [lra|reflexivity].
Qed.

Lemma torch_exp_underflow (x : R) : x < - exp_underflow -> torch_exp x = 0.
Proof.
  intros Hx. unfold torch_exp.
  destruct (Rlt_dec x (- exp_underflow)); [reflexivity|contradiction].
Qed.

Lemma single_exponent (sigma : R) :
  sigma <> 0 -> - (-1 / sigma) ^ 2 / 2 = - (1 / (2 * sigma ^ 2)).
Proof.
  intros Hs. field. exact Hs.
Qed.

Lemma gauss_survives_tenth (sigma : R) : 1 / 10 <= sigma -> gauss_survives sigma.
Proof.
  intros Hs. right. pose proof exp_underflow_large.
  assert (H100 : 1 / 100 <= sigma ^ 2).
  { simpl. rewrite Rmult_1_r.
    replace (1 / 100) with ((1 / 10) * (1 / 10)) by lra.
    apply Rmult_le_compat; lra. }
  assert (Hle : 1 / (2 * sigma ^ 2) <= 50).
  { apply (Rmult_le_reg_r (2 * sigma ^ 2)); [lra|].
    replace (1 / (2 * sigma ^ 2) * (2 * sigma ^ 2)) with 1 by (field; lra).
    lra. }
  lra.
Qed.

(** From sigma = 2/5 on no sample of the bell underflows: every sample
    point lies within 5 sigma of the centre. *)
Lemma support_within_five_sigma (sigma : R) (i : nat) :
  2 / 5 <= sigma -> (i < Z.to_nat (kernel_size sigma))%nat ->
  - 25 / 2 <= - (nth i (kernel_support (kernel_size sigma)) 0 / sigma) ^ 2 / 2.
Proof.
  intros Hs Hi.
  assert (Hpos : 0 < sigma) by lra.
  destruct (kernel_size_odd sigma Hpos) as (_ & Hodd & Hcase).
  pose proof (kernel_size_large sigma Hs) as H3.
  rewrite kernel_support_nth by assumption.
  set (ks := kernel_size sigma) in *.
  assert (HK : 3 <= IZR ks) by (apply IZR_le in H3; exact H3).
  assert (Hsig : IZR ks - 1 <= sigma * 5).
  { destruct (base_Int_part (sigma * 5)) as [Hlo _].
    destruct Hcase as [E | E]; rewrite E; [|rewrite plus_IZR]; lra. }
  assert (Hi0 : 0 <= INR i) by apply pos_INR.
  assert (Hi1 : INR i <= IZR ks - 1).
  { rewrite <- (INR_to_nat ks) by lia.
    replace 1 with (INR 1) by reflexivity. rewrite <- minus_INR by lia.
    apply le_INR. lia. }
  set (t := (IZR ks + 1) / (IZR ks - 1) * (INR i - (IZR ks - 1) / 2)).
  assert (Hratio : 0 < (IZR ks + 1) / (IZR ks - 1) <= 2).
  { split.
    - apply Rdiv_lt_0_compat; lra.
    - apply (Rmult_le_reg_r (IZR ks - 1)); [lra|].
      replace ((IZR ks + 1) / (IZR ks - 1) * (IZR ks - 1)) with (IZR ks + 1)
        by (field; lra).
      lra. }
  assert (Ht : - (IZR ks - 1) <= t <= IZR ks - 1).
  { unfold t. set (q := (IZR ks + 1) / (IZR ks - 1)) in *.
    set (d := INR i - (IZR ks - 1) / 2).
    assert (Hd : - ((IZR ks - 1) / 2) <= d <= (IZR ks - 1) / 2)
      by (unfold d; lra).
    clearbody q d. split.
    - assert (0 <= q * (d + (IZR ks - 1) / 2)) by (apply Rmult_le_pos; lra).
      assert (0 <= (2 - q) * ((IZR ks - 1) / 2)) by (apply Rmult_le_pos; lra).
      lra.
    - assert (0 <= q * ((IZR ks - 1) / 2 - d)) by (apply Rmult_le_pos; lra).
      assert (0 <= (2 - q) * ((IZR ks - 1) / 2)) by (apply Rmult_le_pos; lra).
      lra. }
  clearbody t.
  assert (Hu : -5 <= t / sigma <= 5).
  { split.
    - apply (Rmult_le_reg_r sigma); [lra|].
      replace (t / sigma * sigma) with t by (field; lra). lra.
    - apply (Rmult_le_reg_r sigma); [lra|].
      replace (t / sigma * sigma) with t by (field; lra). lra. }
  set (u := t / sigma) in *. clearbody u.
  assert (0 <= (5 - u) * (5 + u)) by (apply Rmult_le_pos; lra).
  simpl. lra.
Qed.

Lemma gauss_exact (sigma : R) :
  0 < sigma -> gauss_survives sigma ->
  gauss sigma (kernel_support (kernel_size sigma))
  = gauss_values sigma (kernel_support (kernel_size sigma)).
Proof.
  intros Hpos Hsurv. unfold gauss, gauss_values.
  destruct (Rlt_le_dec sigma (2 / 5)) as [Hsmall | Hlarge].
  - rewrite (kernel_size_small sigma (conj Hpos Hsmall)), kernel_support_one.
    cbn [map]. f_equal. apply torch_exp_exact.
    rewrite single_exponent by lra.
    destruct Hsurv as [H25 | Hle]; lra.
  - apply (nth_ext _ _ 0 0); [now rewrite !length_map|].
    intros i Hi. rewrite length_map, kernel_support_length in Hi.
    rewrite (nth_map_in (fun t => torch_exp (- (t / sigma) ^ 2 / 2)))
      by (now rewrite kernel_support_length).
    rewrite (nth_map_in (fun t => exp (- (t / sigma) ^ 2 / 2)))
      by (now rewrite kernel_support_length).
    apply torch_exp_exact.
    pose proof (support_within_five_sigma sigma i Hlarge Hi).
    pose proof exp_underflow_large. lra.
Qed.

Lemma gauss_sum_pos (sigma : R) (ts : list R) :
  ts <> [] -> 0 < Rsum (gauss_values sigma ts).
Proof.
  intros Hne. apply Rsum_pos.
  - destruct ts; [congruence|discriminate].
  - apply exp_map_pos.
Qed.

Lemma kernel_support_nonempty (sigma : R) :
  0 < sigma -> kernel_support (kernel_size sigma) <> [].
Proof.
  intros Hs E. destruct (kernel_size_odd sigma Hs) as (Hge & _).
  pose proof (kernel_support_length (kernel_size sigma)) as Hlen.
  rewrite E in Hlen. simpl in Hlen. lia.
Qed.

Lemma make_gaussian_kernel_ok (sigma : R) :
  0 < sigma -> gauss_survives sigma ->
  make_gaussian_kernel sigma =
  Ok (map (fun g => g / Rsum (gauss_values sigma (kernel_support (kernel_size sigma))))
          (gauss_values sigma (kernel_support (kernel_size sigma)))).
Proof.
  intros Hs Hsurv. unfold make_gaussian_kernel.
  destruct (kernel_size_odd sigma Hs) as (Hge & _).
  destruct (Z.ltb_spec (kernel_size sigma) 0); [lia|].
  destruct (Req_dec_T sigma 0); [lra|].
  rewrite gauss_exact by assumption.
  pose proof (gauss_sum_pos sigma _ (kernel_support_nonempty sigma Hs)).
  destruct (Req_dec_T _ 0); [lra|reflexivity].
Qed.

(** Below sigma = 2/5 the bell has the single sample exp(-1/(2 sigma^2)):
    when it underflows, the kernel is nan. *)
Lemma make_gaussian_kernel_nan (sigma : R) :
  0 < sigma < 2 / 5 -> exp_underflow < 1 / (2 * sigma ^ 2) ->
  make_gaussian_kernel sigma = Nan.
Proof.
  intros Hs Hu. unfold make_gaussian_kernel.
  rewrite (kernel_size_small sigma Hs), kernel_support_one.
  cbn [Z.ltb Z.compare]. destruct (Req_dec_T sigma 0); [reflexivity|].
  unfold gauss. cbn [map Rsum fold_right].
  rewrite torch_exp_underflow by (rewrite single_exponent by lra; lra).
  destruct (Req_dec_T (0 + 0) 0) as [_ | Hne]; [reflexivity|].
  elim Hne. lra.
Qed.

Lemma make_gaussian_kernel_twentieth : make_gaussian_kernel (1 / 20) = Nan.
Proof.
  apply make_gaussian_kernel_nan; [lra|].
  replace (1 / (2 * (1 / 20) ^ 2)) with 200 by field.
  unfold exp_underflow.
  assert (Hln : ln 2 < 1).
  { rewrite <- (ln_exp 1). apply ln_increasing; [lra|].
    pose proof (exp_ineq1 1 ltac:(lra)). lra. }
  lra.
Qed.

Lemma make_gaussian_kernel_survives (sigma : R) (k : list R) :
  0 < sigma -> make_gaussian_kernel sigma = Ok k -> gauss_survives sigma.
Proof.
  intros Hs Hk.
  destruct (Rlt_le_dec sigma (2 / 5)) as [Hsmall | Hlarge]; [|now left].
  destruct (Rle_lt_dec (1 / (2 * sigma ^ 2)) exp_underflow) as [Hle | Hlt];
    [now right|].
  rewrite make_gaussian_kernel_nan in Hk by (try split; assumption).
  discriminate Hk.
Qed.

Lemma make_gaussian_kernel_inv (sigma : R) (k : list R) :
  0 < sigma -> make_gaussian_kernel sigma = Ok k ->
  k = map (fun g => g / Rsum (gauss_values sigma (kernel_support (kernel_size sigma))))
          (gauss_values sigma (kernel_support (kernel_size sigma))).
Proof.
  intros Hs Hk.
  rewrite (make_gaussian_kernel_ok sigma Hs
             (make_gaussian_kernel_survives sigma k Hs Hk)) in Hk.
  apply Ok_inj in Hk. now symmetry.
Qed.

Lemma kernel_large_survives (sigma : R) :
  0 < sigma -> (3 <= kernel_size sigma)%Z -> gauss_survives sigma.
Proof.
  intros Hs H3. left.
  destruct (Rlt_le_dec sigma (2 / 5)) as [Hsmall | Hlarge]; [|exact Hlarge].
  rewrite (kernel_size_small sigma (conj Hs Hsmall)) in H3. lia.
Qed.

Lemma gauss_survives_1 : gauss_survives 1.
Proof. left. lra. Qed.

Lemma gauss_survives_fifth : gauss_survives (1 / 5).
Proof. apply gauss_survives_tenth. lra. Qed.

Lemma exp_underflow_small : exp_underflow < 150.
Proof.
  unfold exp_underflow.
  assert (Hln : ln 2 < 1).
  { rewrite <- (ln_exp 1). apply ln_increasing; [lra|].
    pose proof (exp_ineq1 1 ltac:(lra)). lra. }
  lra.
Qed.

(** C6 (amended).  For every sigma > 0 the kernel has length ks, which is
    int(5 sigma) when that is odd and int(5 sigma) + 1 otherwise, and its
    sample points are ks evenly spaced points t from -(ks+1)/2 to (ks+1)/2
    (the single point -1 when ks = 1; spacing (ks+1)/(ks-1) otherwise,
    symmetric about 0).  From sigma = 2/5 on, and below 2/5 as long as the
    single float32 sample exp(-1/(2 sigma^2)) does not underflow
    (1/(2 sigma^2) <= 150 ln 2, which holds from sigma = 1/10 on), the
    kernel is made of the samples exp(-(t/sigma)^2/2) of the zero-mean
    Gaussian of standard deviation sigma, divided by their sum, and its
    entries sum to 1.  For the smaller sigma the sample is 0, the sum is 0
    and the kernel is nan (for sigma <= 1/20 at least). *)
Theorem make_gaussian_kernel_spec (sigma : R) :
  0 < sigma ->
  let ks := kernel_size sigma in
  let ts := kernel_support ks in
  Z.odd ks = true /\
  ks = (if Z.even (py_int (sigma * 5)) then py_int (sigma * 5) + 1
        else py_int (sigma * 5))%Z /\
  (gauss_survives sigma ->
   exists k,
      make_gaussian_kernel sigma = Ok k /\
      length k = Z.to_nat ks /\
      (forall i, (i < Z.to_nat ks)%nat ->
         nth i k 0 =
         exp (- (nth i ts 0 / sigma) ^ 2 / 2) / Rsum (gauss_values sigma ts)) /\
      Rsum k = 1) /\
  (~ gauss_survives sigma -> make_gaussian_kernel sigma = Nan) /\
  (1 / 10 <= sigma -> gauss_survives sigma) /\
  (sigma <= 1 / 20 -> ~ gauss_survives sigma) /\
  (ks = 1%Z -> ts = [-1]) /\
  ((3 <= ks)%Z ->
   forall i, (i < Z.to_nat ks)%nat ->
     nth i ts 0 = (IZR ks + 1) / (IZR ks - 1) * (INR i - (IZR ks - 1) / 2) /\
     nth (Z.to_nat ks - 1 - i) ts 0 = - nth i ts 0).
Proof.
  intros Hs ks ts.
  destruct (kernel_size_odd sigma Hs) as [Hge [Hodd _]].
  fold ks in Hge, Hodd.
  assert (Hlen : length ts = Z.to_nat ks) by apply kernel_support_length.
  assert (Hne : ts <> []).
  { intros E. rewrite E in Hlen. simpl in Hlen. lia. }
  split; [exact Hodd|]. split.
  { unfold ks, kernel_size. rewrite Zeven_mod. reflexivity. }
  split.
  { intros Hsurv.
    eexists. split; [apply make_gaussian_kernel_ok; assumption|].
    fold ks ts. split; [|split].
    - unfold gauss_values. now rewrite !length_map.
    - intros i Hi.
      set (S := Rsum (gauss_values sigma ts)).
      rewrite (nth_map_in (fun g => g / S))
        by (unfold gauss_values; rewrite length_map; lia).
      f_equal. unfold gauss_values.
      now rewrite (nth_map_in (fun t => exp (- (t / sigma) ^ 2 / 2))) by lia.
    - apply Rsum_normalized.
      pose proof (gauss_sum_pos sigma ts Hne). lra. }
  split.
  { intros Hnot.
    assert (Hsmall : sigma < 2 / 5).
    { apply Rnot_le_lt. intros Hle. apply Hnot. now left. }
    apply make_gaussian_kernel_nan; [split; assumption|].
    apply Rnot_le_lt. intros Hle. apply Hnot. now right. }
  split; [apply gauss_survives_tenth|].
  split.
  { intros Hle [Hlarge | Hfit]; [lra|].
    pose proof exp_underflow_small.
    assert (H400 : sigma ^ 2 <= 1 / 400).
    { simpl. rewrite Rmult_1_r.
      replace (1 / 400) with ((1 / 20) * (1 / 20)) by lra.
      apply Rmult_le_compat; lra. }
    assert (Hpos2 : 0 < sigma ^ 2) by (apply pow_lt; exact Hs).
    assert (Hge200 : 200 <= 1 / (2 * sigma ^ 2)).
    { apply (Rmult_le_reg_r (2 * sigma ^ 2)); [lra|].
      replace (1 / (2 * sigma ^ 2) * (2 * sigma ^ 2)) with 1 by (field; lra).
      lra. }
    lra. }
  split.
  { intros E. unfold ts. rewrite E. apply kernel_support_one. }
  intros H3 i Hi. split.
  - now apply kernel_support_nth.
  - unfold ts. rewrite !kernel_support_nth by (trivial; lia).
    rewrite minus_INR by lia. rewrite minus_INR by lia.
    rewrite INR_to_nat by lia. simpl (INR 1).
    assert (3 <= IZR ks) by (apply IZR_le in H3; exact H3).
    field. lra.
Qed.

Lemma make_gaussian_kernel_spec_witness :
  0 < 1 /\
  exists k, make_gaussian_kernel 1 = Ok k /\ length k = 5%nat /\ Rsum k = 1.
Proof.
  split; [lra|].
  destruct (make_gaussian_kernel_spec 1 ltac:(lra))
    as (_ & _ & Hk & _).
  destruct Hk as (k & Hk & Hlen & _ & Hsum); [left; lra|].
  exists k. rewrite kernel_size_1 in Hlen. auto.
Defined.

(** Seen over the integers -(ks-1)/2 .. (ks-1)/2 the kernel is the
    Gaussian of standard deviation sigma * (ks-1)/(ks+1), not sigma. *)
Lemma make_gaussian_kernel_integer_view (sigma : R) :
  0 < sigma -> (3 <= kernel_size sigma)%Z ->
  let ks := kernel_size sigma in
  make_gaussian_kernel sigma =
  Ok (spec_gaussian_samples
        (sigma * (IZR ks - 1) / (IZR ks + 1))
        (map (fun i => (Z.of_nat i - (ks - 1) / 2)%Z) (seq 0 (Z.to_nat ks)))).
Proof.
  intros Hs H3 ks.
  destruct (kernel_size_odd sigma Hs) as (_ & Hodd & _). fold ks in Hodd, H3.
  rewrite make_gaussian_kernel_ok
    by (trivial; now apply kernel_large_survives). fold ks.
  unfold spec_gaussian_samples.
  assert (HK : 3 <= IZR ks) by (apply IZR_le in H3; exact H3).
  assert (Hhalf : IZR ((ks - 1) / 2) = (IZR ks - 1) / 2).
  { apply Z.odd_spec in Hodd. destruct Hodd as [m Hm]. rewrite Hm.
    replace ((2 * m + 1 - 1) / 2)%Z with m
      by (Z.to_euclidean_division_equations; lia).
    rewrite plus_IZR, mult_IZR. lra. }
  assert (E : gauss_values sigma (kernel_support ks) =
              gauss_values (sigma * (IZR ks - 1) / (IZR ks + 1))
                (map IZR (map (fun i => (Z.of_nat i - (ks - 1) / 2)%Z)
                              (seq 0 (Z.to_nat ks))))).
  { unfold gauss_values. rewrite !map_map.
    apply (nth_ext _ _ 0 0).
    - now rewrite !length_map, kernel_support_length, length_seq.
    - intros i Hi. rewrite length_map, kernel_support_length in Hi.
      rewrite (nth_indep _ 0 ((fun t => exp (- (t / sigma) ^ 2 / 2)) 0))
        by (now rewrite length_map, kernel_support_length).
      rewrite (map_nth (fun t => exp (- (t / sigma) ^ 2 / 2))).
      rewrite nth_map_seq by exact Hi.
      rewrite kernel_support_nth by assumption.
      rewrite minus_IZR, Hhalf, <- INR_IZR_INZ.
      f_equal. field. lra. }
  now rewrite E.
Qed.

(** C6 as stated fails at sigma = 1: the kernel is not the normalised
    samples of the Gaussian of standard deviation 1 over any list of
    integers (the sample points are -3, -3/2, 0, 3/2, 3). *)
Lemma make_gaussian_kernel_integer_support_counterexample :
  ~ (exists support : list Z,
        make_gaussian_kernel 1 = Ok (spec_gaussian_samples 1 support)).
Proof.
  intros [support H].
  rewrite make_gaussian_kernel_ok in H by (try lra; apply gauss_survives_1).
  rewrite kernel_size_1, kernel_support_5 in H. apply Ok_inj in H.
  unfold spec_gaussian_samples in H.
  set (S := Rsum (gauss_values 1 _)) in H.
  set (S' := Rsum (gauss_values 1 (map IZR support))) in H.
  assert (HS : 0 < S) by (apply gauss_sum_pos; discriminate).
  destruct support as [|t0 [|t1 [|t2 support]]]; try discriminate H.
  assert (HS' : 0 < S') by (apply gauss_sum_pos; discriminate).
  clearbody S S'.
  assert (H1 := f_equal (fun l => nth 1 l 0) H).
  assert (H2 := f_equal (fun l => nth 2 l 0) H).
  cbn [nth map gauss_values] in H1, H2. clear H.
  set (g1 := exp _) in H1. set (e1 := exp _) in H1.
  set (g2 := exp _) in H2. set (e2 := exp _) in H2.
  assert (Hx : g1 * e2 = g2 * e1).
  { apply (Rmult_eq_reg_r (/ S * / S')).
    - unfold Rdiv in H1, H2.
      transitivity ((g1 * / S) * (e2 * / S')); [ring|].
      rewrite H1, <- H2. ring.
    - apply Rmult_integral_contrapositive_currified;
        apply Rinv_neq_0_compat; lra. }
  unfold g1, e1, g2, e2 in Hx. rewrite <- !exp_plus in Hx.
  apply exp_inv in Hx.
  assert (Hz : IZR (4 * (t1 * t1) - 4 * (t2 * t2)) = IZR 9).
  { rewrite minus_IZR, !mult_IZR. lra. }
  apply eq_IZR in Hz. lia.
Qed.

(** ** Volumes *)

Lemma vget_vbuild (D H W : nat) (g : nat -> nat -> nat -> R) (a b c : nat) :
  (a < D)%nat -> (b < H)%nat -> (c < W)%nat ->
  vget (vbuild D H W g) a b c = g a b c.
Proof.
  intros Ha Hb Hc. unfold vget, vbuild.
  rewrite (nth_map_seq _ D a) by exact Ha.
  rewrite (nth_map_seq _ H b) by exact Hb.
  now rewrite (nth_map_seq _ W c).
Qed.

Lemma vget_vbuild_outside (D H W : nat) (g : nat -> nat -> nat -> R) (a b c : nat) :
  (D <= a)%nat \/ (H <= b)%nat \/ (W <= c)%nat ->
  vget (vbuild D H W g) a b c = 0.
Proof.
  intros Hout. unfold vget, vbuild.
  destruct (Nat.lt_ge_cases a D) as [Ha|Ha].
  2:{ rewrite (nth_overflow _ _ (n := a))
        by (rewrite length_map, length_seq; exact Ha).
      now destruct b, c. }
  rewrite (nth_map_seq _ D a) by exact Ha.
  destruct (Nat.lt_ge_cases b H) as [Hb|Hb].
  2:{ rewrite (nth_overflow _ _ (n := b))
        by (rewrite length_map, length_seq; exact Hb).
      now destruct c. }
  rewrite (nth_map_seq _ H b) by exact Hb.
  apply nth_overflow. rewrite length_map, length_seq. lia.
Qed.

Lemma vbuild_ext (D H W : nat) (g h : nat -> nat -> nat -> R) :
  (forall a b c, (a < D)%nat -> (b < H)%nat -> (c < W)%nat ->
                 g a b c = h a b c) ->
  vbuild D H W g = vbuild D H W h.
Proof.
  intros E. unfold vbuild.
  apply map_ext_in. intros a Ha. apply in_seq in Ha.
  apply map_ext_in. intros b Hb. apply in_seq in Hb.
  apply map_ext_in. intros c Hc. apply in_seq in Hc.
  apply E; lia.
Qed.

Lemma rect_vbuild (D H W : nat) (g : nat -> nat -> nat -> R) :
  rect D H W (vbuild D H W g).
Proof.
  unfold rect, vbuild. split.
  - now rewrite length_map, length_seq.
  - apply Forall_forall. intros pl Hpl. apply in_map_iff in Hpl.
    destruct Hpl as [a [<- _]]. split.
    + now rewrite length_map, length_seq.
    + apply Forall_forall. intros r Hr. apply in_map_iff in Hr.
      destruct Hr as [b [<- _]]. now rewrite length_map, length_seq.
Qed.

Lemma rect_dims (D H W : nat) (v : vol) :
  rect D H W v -> (1 <= D)%nat -> (1 <= H)%nat ->
  dimD v = D /\ dimH v = H /\ dimW v = W.
Proof.
  intros [HD Hall] H1 H2. unfold dimD, dimH, dimW.
  destruct v as [|pl v]; [simpl in HD; lia|].
  inversion Hall as [|? ? [HH Hrows] _]; subst. simpl.
  destruct pl as [|r pl]; [simpl in H2; lia|].
  inversion Hrows; subst. simpl. auto.
Qed.

Lemma rect_dims3 (D H W : nat) (v : vol) :
  rect D H W v -> (1 <= D)%nat -> (1 <= H)%nat ->
  (dimD v, dimH v, dimW v) = (D, H, W).
Proof.
  intros Hr HD HH. now destruct (rect_dims D H W v Hr HD HH) as (-> & -> & ->).
Qed.

Lemma rect_vget_outside (D H W : nat) (v : vol) (a b c : nat) :
  rect D H W v ->
  (D <= a)%nat \/ (H <= b)%nat \/ (W <= c)%nat ->
  vget v a b c = 0.
Proof.
  intros [HD Hall] Hout. unfold vget.
  destruct (Nat.lt_ge_cases a D) as [Ha|Ha].
  2:{ rewrite (nth_overflow v) by lia. now destruct b, c. }
  assert (Hpl : In (nth a v []) v) by (apply nth_In; lia).
  rewrite Forall_forall in Hall. destruct (Hall _ Hpl) as [HH Hrows].
  destruct (Nat.lt_ge_cases b H) as [Hb|Hb].
  2:{ rewrite (nth_overflow (nth a v [])) by lia. now destruct c. }
  assert (Hr : In (nth b (nth a v []) []) (nth a v [])) by (apply nth_In; lia).
  rewrite Forall_forall in Hrows. specialize (Hrows _ Hr).
  apply nth_overflow. lia.
Qed.

Lemma rect_eta (D H W : nat) (v : vol) :
  rect D H W v -> v = vbuild D H W (vget v).
Proof.
  intros [HD Hall]. unfold vbuild, vget.
  apply (nth_ext _ _ [] []).
  - now rewrite length_map, length_seq.
  - intros a Ha. rewrite HD in Ha. rewrite (nth_map_seq _ D a) by exact Ha.
    assert (Hpl : In (nth a v []) v) by (apply nth_In; lia).
    rewrite Forall_forall in Hall. destruct (Hall _ Hpl) as [HH Hrows].
    apply (nth_ext _ _ [] []).
    + now rewrite length_map, length_seq.
    + intros b Hb. rewrite HH in Hb. rewrite (nth_map_seq _ H b) by exact Hb.
      assert (Hr : In (nth b (nth a v []) []) (nth a v []))
        by (apply nth_In; lia).
      rewrite Forall_forall in Hrows. specialize (Hrows _ Hr).
      apply (nth_ext _ _ 0 0).
      * now rewrite length_map, length_seq.
      * intros c Hc. rewrite Hrows in Hc. now rewrite (nth_map_seq _ W c).
Qed.

Lemma sum_n_ext (n : nat) (g h : nat -> R) :
  (forall i, (i < n)%nat -> g i = h i) -> sum_n n g = sum_n n h.
Proof.
  intros E. unfold sum_n. f_equal. apply map_ext_in.
  intros i Hi. apply in_seq in Hi. apply E. lia.
Qed.

Lemma sum_n_S (n : nat) (g : nat -> R) : sum_n (S n) g = sum_n n g + g n.
Proof.
  unfold sum_n. rewrite seq_S, map_app, Rsum_app. simpl. lra.
Qed.

Lemma sum_n_scal (n : nat) (c : R) (g : nat -> R) :
  sum_n n (fun i => c * g i) = c * sum_n n g.
Proof.
  induction n as [|n IH].
  - unfold sum_n. simpl. lra.
  - rewrite !sum_n_S, IH. lra.
Qed.

Lemma sum_n_zero (n : nat) : sum_n n (fun _ => 0) = 0.
Proof.
  induction n as [|n IH]; [reflexivity|]. rewrite sum_n_S, IH. lra.
Qed.

Lemma sum_n_1 (g : nat -> R) : sum_n 1 g = g 0%nat.
Proof. unfold sum_n. simpl. lra. Qed.

(** ** The separable blur *)

Lemma odd_half (K : nat) : Nat.odd K = true -> K = (2 * (K / 2) + 1)%nat.
Proof.
  intros Hodd. apply Nat.odd_spec in Hodd. destruct Hodd as [m ->].
  replace (2 * m + 1)%nat with (m * 2 + 1)%nat at 2 by lia.
  rewrite Nat.div_add_l by lia. simpl. lia.
Qed.

Lemma vget_permute (D H W : nat) (v : vol) (u b c : nat) :
  rect D H W v -> (1 <= D)%nat -> (1 <= H)%nat ->
  vget (permute_01423 v) u b c = vget v b c u.
Proof.
  intros Hr HD HH. destruct (rect_dims D H W v Hr HD HH) as (E1 & E2 & E3).
  unfold permute_01423. rewrite E1, E2, E3.
  destruct (Nat.lt_ge_cases u W); [destruct (Nat.lt_ge_cases b D);
    [destruct (Nat.lt_ge_cases c H)|]|].
  - now rewrite vget_vbuild.
  - rewrite vget_vbuild_outside by lia.
    symmetry. apply (rect_vget_outside D H W); auto.
  - rewrite vget_vbuild_outside by lia.
    symmetry. apply (rect_vget_outside D H W); auto.
  - rewrite vget_vbuild_outside by lia.
    symmetry. apply (rect_vget_outside D H W); auto.
Qed.

Lemma rect_permute (D H W : nat) (v : vol) :
  rect D H W v -> (1 <= D)%nat -> (1 <= H)%nat ->
  rect W D H (permute_01423 v).
Proof.
  intros Hr HD HH. destruct (rect_dims D H W v Hr HD HH) as (E1 & E2 & E3).
  unfold permute_01423. rewrite E1, E2, E3. apply rect_vbuild.
Qed.

Lemma k1d_dims (k : list R) :
  k <> [] ->
  dimD (k1d_of k) = length k /\ dimH (k1d_of k) = 1%nat /\
  dimW (k1d_of k) = 1%nat.
Proof.
  intros Hk. unfold dimD, dimH, dimW, k1d_of. rewrite length_map.
  destruct k; [congruence|]. simpl. auto.
Qed.

Lemma vget_k1d (k : list R) (i : nat) : vget (k1d_of k) i 0 0 = nth i k 0.
Proof.
  unfold vget, k1d_of.
  destruct (Nat.lt_ge_cases i (length k)) as [Hi|Hi].
  - rewrite (nth_indep _ [] ((fun c => [[c]]) 0)) by (now rewrite length_map).
    now rewrite (map_nth (fun c => [[c]])).
  - rewrite (nth_overflow (map _ k)) by (now rewrite length_map).
    now rewrite (nth_overflow k).
Qed.

(** One turn of the loop convolves the last axis and moves it to the
    front. *)
Lemma blur_step_spec (k : list R) (v : vol) (D H W : nat) :
  rect D H W v -> (1 <= D)%nat -> (1 <= H)%nat -> (1 <= W)%nat ->
  Nat.odd (length k) = true ->
  blur_step k v =
  Ok (vbuild W D H (fun c a b =>
        sum_n (length k) (fun i =>
          nth i k 0 * shifted (length k / 2) (fun u => vget v a b u) (c + i)))).
Proof.
  intros Hr HD HH HW Hodd.
  pose proof (odd_half _ Hodd) as HK.
  assert (Hk : k <> []) by (intros ->; discriminate).
  unfold blur_step, conv3d.
  destruct (rect_dims W D H _ (rect_permute D H W v Hr HD HH) HW HD)
    as (-> & -> & ->).
  destruct (k1d_dims k Hk) as (-> & -> & ->).
  set (p := (length k / 2)%nat) in *.
  replace ((W + 2 * p <? length k) || (D + 2 * 0 <? 1) || (H + 2 * 0 <? 1))%nat
    with false
    by (symmetry; rewrite !orb_false_iff, !Nat.ltb_ge; lia).
  f_equal.
  replace (W + 2 * p - length k + 1)%nat with W by lia.
  replace (D + 2 * 0 - 1 + 1)%nat with D by lia.
  replace (H + 2 * 0 - 1 + 1)%nat with H by lia.
  apply vbuild_ext. intros c a b Hc Ha Hb.
  apply sum_n_ext. intros i Hi.
  rewrite !sum_n_1, vget_k1d. f_equal.
  unfold padded, shifted. simpl (0 <=? _)%nat. rewrite !andb_true_r.
  destruct (p <=? c + i)%nat; [|reflexivity].
  rewrite (vget_permute D H W) by assumption.
  f_equal; lia.
Qed.

Lemma shifted_zero (p : nat) (g : nat -> R) (t : nat) :
  (forall u, g u = 0) -> shifted p g t = 0.
Proof.
  intros Hg. unfold shifted. destruct (p <=? t)%nat; auto.
Qed.

Lemma shifted_ext (p : nat) (g h : nat -> R) (t : nat) :
  (forall u, g u = h u) -> shifted p g t = shifted p h t.
Proof.
  intros E. unfold shifted. destruct (p <=? t)%nat; auto.
Qed.

Lemma apply_3d_gaussian_blur_unfold (self : TCNNGaussianNeRFField) (x : vol) :
  apply_3d_gaussian_blur self x =
  (v1 <- blur_step (gaussian_kernel self) x ;;
   v2 <- blur_step (gaussian_kernel self) v1 ;;
   blur_step (gaussian_kernel self) v2).
Proof.
  unfold apply_3d_gaussian_blur. cbn [seq fold_left bind].
  destruct (blur_step (gaussian_kernel self) x) as [v1|e|]; cbn [bind];
    [|reflexivity..].
  destruct (blur_step (gaussian_kernel self) v1); reflexivity.
Qed.

(** Outside its first two index ranges the output of a turn reads as the
    same sum, which is then 0. *)
Lemma vget_blur_step (k : list R) (v : vol) (D H W : nat) (c a b : nat) :
  rect D H W v -> (c < W)%nat ->
  let G := fun c a b =>
    sum_n (length k) (fun i =>
      nth i k 0 * shifted (length k / 2) (fun u => vget v a b u) (c + i)) in
  vget (vbuild W D H G) c a b = G c a b.
Proof.
  intros Hr Hc G.
  destruct (Nat.lt_ge_cases a D) as [Ha|Ha];
    [destruct (Nat.lt_ge_cases b H) as [Hb|Hb]|].
  - now rewrite vget_vbuild.
  - rewrite vget_vbuild_outside by lia. unfold G.
    rewrite (sum_n_ext _ _ (fun _ => 0)); [now rewrite sum_n_zero|].
    intros i _. rewrite shifted_zero; [lra|].
    intros u. apply (rect_vget_outside D H W); auto.
  - rewrite vget_vbuild_outside by lia. unfold G.
    rewrite (sum_n_ext _ _ (fun _ => 0)); [now rewrite sum_n_zero|].
    intros i _. rewrite shifted_zero; [lra|].
    intros u. apply (rect_vget_outside D H W); auto.
Qed.

Lemma vget_outer_product (k : list R) (i j l : nat) :
  (i < length k)%nat -> (j < length k)%nat -> (l < length k)%nat ->
  vget (spec_outer_product k) i j l = nth i k 0 * nth j k 0 * nth l k 0.
Proof.
  intros. unfold spec_outer_product. now rewrite vget_vbuild.
Qed.

Lemma separable_pointwise (k : list R) (x : vol) (p a b c : nat) :
  sum_n (length k) (fun i =>
    nth i k 0 * shifted p (fun u =>
      sum_n (length k) (fun j =>
        nth j k 0 * shifted p (fun t =>
          sum_n (length k) (fun l =>
            nth l k 0 * shifted p (fun s => vget x u t s) (c + l)))
          (b + j)))
      (a + i)) =
  sum_n (length k) (fun i => sum_n (length k) (fun j => sum_n (length k) (fun l =>
    nth i k 0 * nth j k 0 * nth l k 0
    * padded x p p p (a + i) (b + j) (c + l)))).
Proof.
  apply sum_n_ext. intros i Hi.
  unfold shifted at 1. unfold padded.
  destruct (p <=? a + i)%nat; simpl.
  2:{ rewrite (sum_n_ext _ _ (fun _ => 0)); [rewrite sum_n_zero; lra|].
      intros j _. rewrite (sum_n_ext _ _ (fun _ => 0)); [apply sum_n_zero|].
      intros l _. lra. }
  rewrite <- sum_n_scal. apply sum_n_ext. intros j Hj.
  unfold shifted at 1.
  destruct (p <=? b + j)%nat; simpl.
  2:{ rewrite (sum_n_ext _ _ (fun _ => 0)); [rewrite sum_n_zero; lra|].
      intros l _. lra. }
  rewrite <- !sum_n_scal. apply sum_n_ext. intros l Hl.
  unfold shifted. destruct (p <=? c + l)%nat; ring.
Qed.

(** The three turns of the loop, in closed form. *)
Lemma blur_closed_form
    (self : TCNNGaussianNeRFField) (x : vol) (D H W : nat) :
  rect D H W x -> (1 <= D)%nat -> (1 <= H)%nat -> (1 <= W)%nat ->
  Nat.odd (length (gaussian_kernel self)) = true ->
  apply_3d_gaussian_blur self x =
  Ok (vbuild D H W (full_sum (gaussian_kernel self) x)).
Proof.
  intros Hr HD HH HW Hodd.
  set (k := gaussian_kernel self) in *.
  rewrite apply_3d_gaussian_blur_unfold. fold k.
  rewrite (blur_step_spec k x D H W) by assumption. cbn [bind].
  rewrite (blur_step_spec k _ W D H) by (auto using rect_vbuild). cbn [bind].
  rewrite (blur_step_spec k _ H W D) by (auto using rect_vbuild).
  f_equal. apply vbuild_ext. intros a b c Ha Hb Hc.
  unfold full_sum. rewrite <- separable_pointwise.
  apply sum_n_ext. intros i Hi. f_equal. apply shifted_ext. intros u.
  rewrite (vget_blur_step k _ W D H b c u) by (auto using rect_vbuild).
  apply sum_n_ext. intros j Hj. f_equal. apply shifted_ext. intros t.
  now rewrite (vget_blur_step k x D H W c u t).
Qed.

Lemma spec_conv3d_full_closed_form (k : list R) (x : vol) (D H W : nat) :
  rect D H W x -> (1 <= D)%nat -> (1 <= H)%nat -> (1 <= W)%nat ->
  Nat.odd (length k) = true ->
  spec_conv3d_full k x = Ok (vbuild D H W (full_sum k x)).
Proof.
  intros Hr HD HH HW Hodd.
  pose proof (odd_half _ Hodd) as HK.
  unfold spec_conv3d_full, conv3d.
  destruct (rect_dims D H W x Hr HD HH) as (-> & -> & ->).
  assert (Hk : (1 <= length k)%nat) by lia.
  destruct (rect_dims _ _ _ (spec_outer_product k) (rect_vbuild _ _ _ _) Hk Hk)
    as (E1 & E2 & E3).
  rewrite E1, E2, E3.
  set (p := (length k / 2)%nat) in *.
  replace ((D + 2 * p <? length k) || (H + 2 * p <? length k)
           || (W + 2 * p <? length k))%nat with false
    by (symmetry; rewrite !orb_false_iff, !Nat.ltb_ge; lia).
  f_equal.
  replace (D + 2 * p - length k + 1)%nat with D by lia.
  replace (H + 2 * p - length k + 1)%nat with H by lia.
  replace (W + 2 * p - length k + 1)%nat with W by lia.
  apply vbuild_ext. intros a b c Ha Hb Hc. unfold full_sum. fold p.
  apply sum_n_ext. intros i Hi. apply sum_n_ext. intros j Hj.
  apply sum_n_ext. intros l Hl.
  now rewrite vget_outer_product.
Qed.

(** C7.  For a D x H x W volume (all sizes positive) and a kernel of odd
    length, the three sequential 1-D convolutions of
    [apply_3d_gaussian_blur] succeed, give a volume of the same size along
    each axis, and that volume is the direct 3-D convolution of the
    zero-padded input with the outer product of the kernel with itself. *)
Theorem apply_3d_gaussian_blur_separable
    (self : TCNNGaussianNeRFField) (x : vol) (D H W : nat) :
  rect D H W x -> (1 <= D)%nat -> (1 <= H)%nat -> (1 <= W)%nat ->
  Nat.odd (length (gaussian_kernel self)) = true ->
  exists y,
    apply_3d_gaussian_blur self x = Ok y /\
    rect D H W y /\
    (dimD y, dimH y, dimW y) = (dimD x, dimH x, dimW x) /\
    spec_conv3d_full (gaussian_kernel self) x = Ok y.
Proof.
  intros Hr HD HH HW Hodd.
  exists (vbuild D H W (full_sum (gaussian_kernel self) x)).
  split; [now apply blur_closed_form|].
  split; [apply rect_vbuild|].
  split; [|now apply spec_conv3d_full_closed_form].
  transitivity (D, H, W).
  - apply rect_dims3; auto using rect_vbuild.
  - symmetry. now apply rect_dims3.
Qed.

Lemma apply_3d_gaussian_blur_separable_witness :
  exists y,
    apply_3d_gaussian_blur
      (field_of (torch_full 2 2 2 1) [1 / 4; 1 / 2; 1 / 4] 1 "relu" "sigmoid" 4)
      (torch_full 2 2 2 1) = Ok y /\
    rect 2 2 2 y.
Proof.
  destruct (apply_3d_gaussian_blur_separable
              (field_of (torch_full 2 2 2 1) [1 / 4; 1 / 2; 1 / 4] 1
                        "relu" "sigmoid" 4)
              (torch_full 2 2 2 1) 2 2 2)
    as (y & Hy & Hr & _); try lia.
  - apply rect_vbuild.
  - reflexivity.
  - exists y. split; assumption.
Defined.

(** ** Construction of the field *)

Lemma init_inv `{Externals} (a : Args.t) (fld : TCNNGaussianNeRFField) :
  init a = Ok fld ->
  exists kernel,
    make_gaussian_kernel (Args.sigma a) = Ok kernel /\
    fld = {| aabb := Args.aabb a;
             geo_feat_dim := Args.geo_feat_dim a;
             contraction_type := Args.contraction_type a;
             use_appearance_embedding := Args.use_appearance_embedding a;
             mlp_base := tcnn_network (1 + Args.geo_feat_dim a);
             f := init_grid (Args.f_init a) (Args.f_grid_resolution a);
             f_transition_function := Args.f_transition_function a;
             occupancy_to_density_transformation_function :=
               Args.occupancy_to_density_transformation_function a;
             sigma := Args.sigma a;
             gaussian_kernel := kernel;
             g_transition_function := Args.g_transition_function a;
             g_transition_alpha := Args.g_transition_alpha a;
             g_transition_alpha_increments :=
               Args.g_transition_alpha_increments a;
             density_multiplier := Args.density_multiplier a |}.
Proof.
  unfold init. intros Hinit.
  destruct (if Args.use_appearance_embedding a then _ else _) as [[]|e|];
    cbn [bind] in Hinit; [|discriminate..].
  destruct (make_gaussian_kernel (Args.sigma a)) as [kernel|e|];
    cbn [bind] in Hinit; [|discriminate..].
  exists kernel. split; [reflexivity|]. now inversion Hinit.
Qed.

Lemma init_ok `{Externals} (a : Args.t) (kernel : list R) :
  (Args.use_appearance_embedding a = true -> Args.num_images a <> None) ->
  make_gaussian_kernel (Args.sigma a) = Ok kernel ->
  init a =
  Ok {| aabb := Args.aabb a;
        geo_feat_dim := Args.geo_feat_dim a;
        contraction_type := Args.contraction_type a;
        use_appearance_embedding := Args.use_appearance_embedding a;
        mlp_base := tcnn_network (1 + Args.geo_feat_dim a);
        f := init_grid (Args.f_init a) (Args.f_grid_resolution a);
        f_transition_function := Args.f_transition_function a;
        occupancy_to_density_transformation_function :=
          Args.occupancy_to_density_transformation_function a;
        sigma := Args.sigma a;
        gaussian_kernel := kernel;
        g_transition_function := Args.g_transition_function a;
        g_transition_alpha := Args.g_transition_alpha a;
        g_transition_alpha_increments := Args.g_transition_alpha_increments a;
        density_multiplier := Args.density_multiplier a |}.
Proof.
  intros Himg Hk. unfold init. rewrite Hk.
  destruct (Args.use_appearance_embedding a).
  - destruct (Args.num_images a); [reflexivity|now elim Himg].
  - reflexivity.
Qed.

Lemma vall_vbuild (P : R -> Prop) (D H W : nat) (g : nat -> nat -> nat -> R) :
  (forall a b c, (a < D)%nat -> (b < H)%nat -> (c < W)%nat -> P (g a b c)) ->
  vall P (vbuild D H W g).
Proof.
  intros Hg. unfold vall, vbuild.
  apply Forall_forall. intros pl Hpl. apply in_map_iff in Hpl.
  destruct Hpl as [a [<- Ha]]. apply in_seq in Ha.
  apply Forall_forall. intros r Hr. apply in_map_iff in Hr.
  destruct Hr as [b [<- Hb]]. apply in_seq in Hb.
  apply Forall_forall. intros x Hx. apply in_map_iff in Hx.
  destruct Hx as [c [<- Hc]]. apply in_seq in Hc.
  apply Hg; lia.
Qed.

Lemma vmap_vbuild (h : R -> R) (D H W : nat) (g : nat -> nat -> nat -> R) :
  vmap h (vbuild D H W g) = vbuild D H W (fun a b c => h (g a b c)).
Proof.
  unfold vmap, vbuild. rewrite map_map. apply map_ext. intros a.
  rewrite map_map. apply map_ext. intros b.
  rewrite map_map. reflexivity.
Qed.

(** C8.  Provided the draws of [torch.rand] lie in [0, 1), the grid that
    [__init__] builds is R x R x R; with mode "ones" every element is 1,
    with mode "zeros" every element is 0, and with every other mode string
    every element lies in [1/2, 1]. *)
Theorem init_grid_modes `{Externals} (a : Args.t) (fld : TCNNGaussianNeRFField) :
  (forall i j l, 0 <= torch_rand i j l < 1) ->
  init a = Ok fld ->
  let n := Args.f_grid_resolution a in
  rect n n n (f fld) /\
  (Args.f_init a = "ones"%string -> vall (fun x => x = 1) (f fld)) /\
  (Args.f_init a = "zeros"%string -> vall (fun x => x = 0) (f fld)) /\
  (Args.f_init a <> "ones"%string -> Args.f_init a <> "zeros"%string ->
   vall (fun x => 1 / 2 <= x <= 1) (f fld)).
Proof.
  intros Hrand Hinit n. apply init_inv in Hinit.
  destruct Hinit as (kernel & _ & ->). cbn [f]. fold n.
  unfold init_grid, torch_full. rewrite vmap_vbuild.
  split; [|split; [|split]].
  - destruct (Args.f_init a =? "ones")%string;
      [|destruct (Args.f_init a =? "zeros")%string]; apply rect_vbuild.
  - intros ->. cbn. now apply vall_vbuild.
  - intros ->. cbn. now apply vall_vbuild.
  - intros H1 H0.
    apply String.eqb_neq in H1, H0. rewrite H1, H0.
    apply vall_vbuild. intros i j l _ _ _.
    specialize (Hrand i j l). lra.
Qed.

Lemma make_gaussian_kernel_1_ok :
  exists kernel, make_gaussian_kernel 1 = Ok kernel /\ length kernel = 5%nat.
Proof.
  eexists. split.
  - apply make_gaussian_kernel_ok; [lra|apply gauss_survives_1].
  - unfold gauss_values.
    now rewrite !length_map, kernel_support_length, kernel_size_1.
Qed.

Lemma init_grid_modes_witness :
  exists fld,
    @init example_externals
          (Args.with_grid (Args.default unit_box) "rand" 2 1) = Ok fld /\
    vall (fun x => 1 / 2 <= x <= 1) (f fld).
Proof.
  destruct make_gaussian_kernel_1_ok as (kernel & Hk & _).
  eexists. split.
  - apply (init_ok _ kernel); [discriminate|exact Hk].
  - refine (proj2 (proj2 (proj2
      (@init_grid_modes example_externals
         (Args.with_grid (Args.default unit_box) "rand" 2 1) _ _ _))) _ _).
    + intros i j l. cbn. lra.
    + apply (init_ok _ kernel); [discriminate|exact Hk].
    + discriminate.
    + discriminate.
Defined.

(** C4 (amended).  Construction never rejects a transition-function name:
    [__init__] stores both names unchecked, and succeeds or fails exactly as
    it does with any other pair of names.  At query time a
    [g_transition_function] other than "sigmoid" behaves as "identity". *)
Theorem init_stores_transition_names_unchecked `{Externals}
    (a : Args.t) (f_name g_name : string) :
  init (Args.with_transitions a f_name g_name) =
    (fld <- init a ;; Ok (set_transitions fld f_name g_name)) /\
  (forall fld rs,
      g_transition_function fld <> "sigmoid"%string ->
      get_density fld rs =
      get_density (set_transitions fld (f_transition_function fld) "identity") rs).
Proof.
  split.
  - unfold init. cbn [Args.with_transitions Args.use_appearance_embedding
      Args.num_images Args.sigma Args.geo_feat_dim Args.f_init
      Args.f_grid_resolution Args.aabb Args.contraction_type
      Args.f_transition_function Args.g_transition_function
      Args.occupancy_to_density_transformation_function
      Args.g_transition_alpha Args.g_transition_alpha_increments
      Args.density_multiplier].
    destruct (if Args.use_appearance_embedding a then _ else _) as [[]|e|];
      cbn [bind]; [|reflexivity..].
    destruct (make_gaussian_kernel (Args.sigma a)); reflexivity.
  - intros fld rs Hg. apply String.eqb_neq in Hg.
    unfold get_density, arg_maxed_smoothed_grid, assign_smoothed_grid,
      apply_3d_gaussian_blur.
    cbn [set_transitions aabb contraction_type mlp_base geo_feat_dim f
         f_transition_function g_transition_function gaussian_kernel
         density_multiplier g_transition_alpha].
    rewrite Hg. reflexivity.
Qed.

(** C4 as stated fails: with the default arguments and
    [f_transition_function="tanh"] the constructor does not raise, whatever
    the external collaborators are. *)
Lemma init_accepts_unrecognized_name_counterexample :
  ~ (exists (E : Externals) (e : exn), @init E tanh_args = Raise e).
Proof.
  intros (E & e & Hraise).
  destruct make_gaussian_kernel_1_ok as (kernel & Hk & _).
  rewrite (init_ok tanh_args kernel) in Hraise;
    [discriminate|discriminate|exact Hk].
Qed.

Lemma assign_smoothed_grid_unrecognized (self : TCNNGaussianNeRFField) :
  f_transition_function self <> "relu"%string ->
  f_transition_function self <> "sigmoid"%string ->
  assign_smoothed_grid self = Ok None.
Proof.
  intros H1 H2. apply String.eqb_neq in H1, H2.
  unfold assign_smoothed_grid. now rewrite H1, H2.
Qed.

Lemma map_nonempty {A B : Type} (g : A -> B) (l : list A) :
  l <> [] -> map g l <> [].
Proof.
  intros Hne. destruct l; [congruence|discriminate].
Qed.

Lemma view_rows_map {A B : Type} (g : A -> B) (l : list A) :
  l <> [] -> view_rows (map g l) = Ok (map g l).
Proof.
  intros Hne. destruct l; [congruence|reflexivity].
Qed.

(** On an empty batch [get_density] fails at the reshape, before it looks
    at the grid. *)
Lemma get_density_empty `{Externals}
    (self : TCNNGaussianNeRFField) (rs : RaySamples) :
  frustums_get_positions rs = [] ->
  get_density self rs =
  Raise (RuntimeError
           "cannot reshape tensor of 0 elements into shape [0, -1] because the unspecified dimension size -1 can be any value and is ambiguous").
Proof.
  intros E. unfold get_density. rewrite E. reflexivity.
Qed.

(** With an unrecognised [f_transition_function] the failure comes at query
    time: both queries read the unassigned local [smoothed_grid]. *)
Lemma unrecognized_f_fails_at_query `{Externals}
    (self : TCNNGaussianNeRFField) (rs : RaySamples) :
  f_transition_function self <> "relu"%string ->
  f_transition_function self <> "sigmoid"%string ->
  (frustums_get_positions rs <> [] ->
   get_density self rs = Raise (UnboundLocalError "smoothed_grid")) /\
  get_certified_radius self = Raise (UnboundLocalError "smoothed_grid").
Proof.
  intros H1 H2. unfold get_density, get_certified_radius.
  rewrite (assign_smoothed_grid_unrecognized self H1 H2). cbn [bind].
  split; [|reflexivity].
  intros Hne. rewrite view_rows_map by (apply map_nonempty; exact Hne).
  cbn [bind]. unfold arg_maxed_smoothed_grid.
  destruct (g_transition_function self =? "sigmoid")%string; auto.
Qed.

(** ** Two special cases of the blur *)

Lemma padded_full (c : R) (D H W pd ph pw u v t : nat) :
  padded (torch_full D H W c) pd ph pw u v t = 0 \/
  padded (torch_full D H W c) pd ph pw u v t = c.
Proof.
  unfold padded, torch_full.
  destruct ((pd <=? u) && (ph <=? v) && (pw <=? t))%nat; [|now left].
  destruct (Nat.lt_ge_cases (u - pd) D);
    [destruct (Nat.lt_ge_cases (v - ph) H);
       [destruct (Nat.lt_ge_cases (t - pw) W)|]|].
  - right. now rewrite vget_vbuild.
  - left. apply vget_vbuild_outside. lia.
  - left. apply vget_vbuild_outside. lia.
  - left. apply vget_vbuild_outside. lia.
Qed.


(** With the one-element kernel [1] the blur is the identity. *)
Lemma blur_unit_kernel (self : TCNNGaussianNeRFField) (x : vol) (D H W : nat) :
  rect D H W x -> (1 <= D)%nat -> (1 <= H)%nat -> (1 <= W)%nat ->
  gaussian_kernel self = [1] ->
  apply_3d_gaussian_blur self x = Ok x.
Proof.
  intros Hr HD HH HW Hk.
  rewrite (blur_closed_form self x D H W) by (auto; now rewrite Hk).
  f_equal. rewrite (rect_eta D H W x Hr) at 2.
  apply vbuild_ext. intros a b c _ _ _.
  unfold full_sum. rewrite Hk. cbn [length Nat.div]. rewrite !sum_n_1.
  unfold padded. cbn. rewrite !Nat.add_0_r, !Nat.sub_0_r. lra.
Qed.

Lemma vmap_full (h : R -> R) (D H W : nat) (c : R) :
  vmap h (torch_full D H W c) = torch_full D H W (h c).
Proof. unfold torch_full. apply vmap_vbuild. Qed.


Lemma sigmoid_0 : sigmoid 0 = 1 / 2.
Proof. unfold sigmoid. rewrite Ropp_0, exp_0. lra. Qed.



(** Sampling a 1 x 1 x 1 volume gives its element at every point. *)
Lemma grid_sample1_single (c : R) (p : point) :
  grid_sample1 [[[c]]] p = c.
Proof.
  destruct p as [[x y] z]. unfold grid_sample1, unnormalize.
  cbn [dimD dimH dimW hd length INR].
  replace ((x + 1) / 2 * (1 - 1)) with 0 by lra.
  replace ((y + 1) / 2 * (1 - 1)) with 0 by lra.
  replace ((z + 1) / 2 * (1 - 1)) with 0 by lra.
  rewrite (Int_part_IZR 0) by lra.
  unfold corner; cbn. lra.
Qed.

(** ** The fields behind the radius and behind the density *)

Lemma map_fixed_iff {A : Type} (h : A -> A) (l : list A) :
  map h l = l <-> Forall (fun x => h x = x) l.
Proof.
  induction l as [|a l IH]; simpl.
  - split; auto.
  - split.
    + intros E. inversion E as [[Ea El]]. rewrite Ea, El.
      constructor; [exact Ea|]. apply IH. exact El.
    + intros Hall. inversion Hall as [|? ? Ha Hl]; subst.
      rewrite Ha. f_equal. now apply IH.
Qed.

Lemma Forall_iff {A : Type} (P Q : A -> Prop) (l : list A) :
  (forall x, P x <-> Q x) -> Forall P l <-> Forall Q l.
Proof.
  intros E. split; apply Forall_impl; intros x; apply E.
Qed.

Lemma vmap_fixed_iff (h : R -> R) (v : vol) :
  vmap h v = v <-> vall (fun s => h s = s) v.
Proof.
  unfold vmap, vall.
  etransitivity; [apply map_fixed_iff|].
  apply Forall_iff. intros pl.
  etransitivity; [apply map_fixed_iff|].
  apply Forall_iff. intros r. apply map_fixed_iff.
Qed.

Lemma arg_maxed_density_grid (self : TCNNGaussianNeRFField) (smoothed : vol) :
  arg_maxed_smoothed_grid self (Some smoothed) =
  Ok (density_grid_of self smoothed).
Proof.
  unfold arg_maxed_smoothed_grid, density_grid_of.
  destruct (g_transition_function self =? "sigmoid")%string; reflexivity.
Qed.

Lemma get_density_closed_form `{Externals}
    (self : TCNNGaussianNeRFField) (rs : RaySamples) (smoothed : vol) :
  assign_smoothed_grid self = Ok (Some smoothed) ->
  frustums_get_positions rs <> [] ->
  get_density self rs =
  Ok (map (fun p => density_multiplier self
                    * trunc_exp (grid_sample1 (density_grid_of self smoothed)
                                              (rescaled_position self p)))
          (frustums_get_positions rs),
      map (fun p => firstn (geo_feat_dim self)
                      (skipn 1 (mlp_base self
                         (contract (aabb self) (contraction_type self) p))))
          (frustums_get_positions rs)).
Proof.
  intros Hs Hne. unfold get_density.
  rewrite view_rows_map by (apply map_nonempty; exact Hne).
  rewrite Hs. cbn [bind].
  rewrite arg_maxed_density_grid. cbn [bind].
  unfold grid_sample. rewrite !map_map. reflexivity.
Qed.

Lemma output_aux_pointwise `{Externals}
    (self : TCNNGaussianNeRFField) (smoothed : vol) (ps : list point) :
  output_aux self smoothed ps =
  map (fun p => sigma self * icdf (grid_sample1 smoothed p)) ps.
Proof.
  unfold output_aux, grid_sample. now rewrite map_map.
Qed.

Lemma get_certified_radius_closed_form `{Externals}
    (self : TCNNGaussianNeRFField) (smoothed : vol) :
  assign_smoothed_grid self = Ok (Some smoothed) ->
  get_certified_radius self =
  Ok (vmap (fun o => sigma self * icdf o) (interpolate smoothed 2),
      eikonal_of
        (autograd_grad (output_aux self smoothed) (lattice self)
           (map (fun _ => 1) (output_aux self smoothed (lattice self))))).
Proof.
  intros Hs. unfold get_certified_radius. rewrite Hs. reflexivity.
Qed.

(** ** Fields built by the constructor *)

Lemma odd_to_nat (z : Z) :
  Z.odd z = true -> (0 <= z)%Z -> Nat.odd (Z.to_nat z) = true.
Proof.
  intros Hodd Hz. apply Z.odd_spec in Hodd. destruct Hodd as [m ->].
  apply Nat.odd_spec. exists (Z.to_nat m). lia.
Qed.

Lemma make_gaussian_kernel_odd (sigma : R) (kernel : list R) :
  0 < sigma -> make_gaussian_kernel sigma = Ok kernel ->
  Nat.odd (length kernel) = true.
Proof.
  intros Hs Hk. destruct (kernel_size_odd sigma Hs) as (Hge & Hodd & _).
  rewrite (make_gaussian_kernel_inv sigma kernel Hs Hk).
  unfold gauss_values.
  rewrite !length_map, kernel_support_length.
  apply odd_to_nat; [exact Hodd|lia].
Qed.

Lemma kernel_size_fifth : kernel_size (1 / 5) = 1%Z.
Proof.
  unfold kernel_size. rewrite py_int_nonneg by lra.
  rewrite (Int_part_IZR 1) by lra. reflexivity.
Qed.

Lemma make_gaussian_kernel_fifth : make_gaussian_kernel (1 / 5) = Ok [1].
Proof.
  rewrite make_gaussian_kernel_ok by (try lra; apply gauss_survives_fifth).
  rewrite kernel_size_fifth, kernel_support_one.
  unfold gauss_values. cbn [map Rsum fold_right].
  do 2 f_equal. field.
  pose proof (exp_pos (- (-1 / (1 / 5)) ^ 2 / 2)). lra.
Qed.


(** The smoothed grid of a zero grid under "sigmoid" with the kernel [1]. *)
Lemma smoothed_zero_sigmoid_unit (self : TCNNGaussianNeRFField) (n : nat) :
  (1 <= n)%nat -> f self = torch_full n n n 0 ->
  f_transition_function self = "sigmoid"%string ->
  gaussian_kernel self = [1] ->
  assign_smoothed_grid self = Ok (Some (torch_full n n n (1 / 2))).
Proof.
  intros Hn Hf Ht Hk. unfold assign_smoothed_grid.
  rewrite Ht, Hf. cbn [String.eqb Ascii.eqb Bool.eqb].
  rewrite vmap_full, sigmoid_0.
  rewrite (blur_unit_kernel self _ n n n) by (auto; apply rect_vbuild).
  reflexivity.
Qed.

Lemma init_zeros_args `{Externals} :
  exists fld,
    init zeros_args = Ok fld /\
    f fld = torch_full 1 1 1 0 /\
    f_transition_function fld = "relu"%string /\
    Nat.odd (length (gaussian_kernel fld)) = true.
Proof.
  destruct make_gaussian_kernel_1_ok as (kernel & Hk & Hlen).
  eexists. split; [apply (init_ok zeros_args kernel); [discriminate|exact Hk]|].
  cbn [f f_transition_function gaussian_kernel]. rewrite Hlen.
  repeat split.
Qed.

Lemma init_half_args `{Externals} :
  exists fld,
    init half_args = Ok fld /\
    f fld = torch_full 1 1 1 0 /\
    f_transition_function fld = "sigmoid"%string /\
    g_transition_function fld = "sigmoid"%string /\
    g_transition_alpha fld = 4 /\
    gaussian_kernel fld = [1] /\
    sigma fld = 1 / 5 /\
    density_multiplier fld = 1.
Proof.
  eexists. split.
  - apply (init_ok half_args [1]); [discriminate|].
    apply make_gaussian_kernel_fifth.
  - cbn. repeat split.
Qed.

Lemma density_grid_half (self : TCNNGaussianNeRFField) (n : nat) :
  g_transition_function self = "sigmoid"%string ->
  density_grid_of self (torch_full n n n (1 / 2)) = torch_full n n n (1 / 2).
Proof.
  intros Hg. unfold density_grid_of. rewrite Hg.
  cbn [String.eqb Ascii.eqb Bool.eqb]. rewrite vmap_full. f_equal.
  replace (g_transition_alpha self * (1 / 2 - 1 / 2)) with 0 by lra.
  apply sigmoid_0.
Qed.

(** ** No clamping before the inverse CDF *)




Lemma spec_get_density_closed_form `{Externals}
    (self : TCNNGaussianNeRFField) (rs : RaySamples) (smoothed : vol) :
  assign_smoothed_grid self = Ok (Some smoothed) ->
  frustums_get_positions rs <> [] ->
  spec_get_density self rs =
  Ok (map (fun p => density_multiplier self
                    * trunc_exp (sigma self
                        * icdf (grid_sample1 (density_grid_of self smoothed)
                                             (rescaled_position self p))))
          (frustums_get_positions rs),
      map (fun p => firstn (geo_feat_dim self)
                      (skipn 1 (mlp_base self
                         (contract (aabb self) (contraction_type self) p))))
          (frustums_get_positions rs)).
Proof.
  intros Hs Hne. unfold spec_get_density.
  rewrite view_rows_map by (apply map_nonempty; exact Hne).
  rewrite Hs. cbn [bind].
  rewrite arg_maxed_density_grid. cbn [bind].
  unfold grid_sample. rewrite !map_map. reflexivity.
Qed.

Lemma sigmoid_lt_1 (x : R) : sigmoid x < 1.
Proof.
  unfold sigmoid. pose proof (exp_pos (- x)) as Hx.
  apply (Rmult_lt_reg_r (1 + exp (- x))); [lra|].
  unfold Rdiv. rewrite Rmult_assoc, Rinv_l by lra. lra.
Qed.

(** ** The density query *)

(** C1 (amended).  In [get_density], for every batch of at least one ray
    sample (and whenever the smoothed grid is assigned), the scalar sampled
    from the transitioned field at each normalized point goes directly into
    the exponential activation and is multiplied by [density_multiplier];
    no inverse CDF is applied, and the result does not depend on [icdf].
    On an empty batch the reshape of the network output raises a
    [RuntimeError], and no density is returned. *)
Theorem get_density_no_icdf `{Externals}
    (self : TCNNGaussianNeRFField) (rs : RaySamples) (smoothed : vol) :
  assign_smoothed_grid self = Ok (Some smoothed) ->
  (frustums_get_positions rs <> [] ->
   exists base_mlp_out,
      get_density self rs =
      Ok (map (fun p =>
                 density_multiplier self
                 * trunc_exp (grid_sample1 (density_grid_of self smoothed)
                                           (rescaled_position self p)))
              (frustums_get_positions rs),
          base_mlp_out)) /\
  (frustums_get_positions rs = [] ->
   exists msg, get_density self rs = Raise (RuntimeError msg)) /\
  (forall ic, @get_density (with_icdf _ ic) self rs = get_density self rs).
Proof.
  intros Hs. split; [|split].
  - intros Hne. eexists.
    apply (get_density_closed_form self rs smoothed Hs Hne).
  - intros E. eexists. now apply get_density_empty.
  - intros ic. reflexivity.
Qed.

Lemma get_density_no_icdf_witness :
  exists base_mlp_out,
    @get_density example_externals half_field one_ray
    = Ok ([1 * exp (1 / 2)], base_mlp_out).
Proof.
  destruct (@get_density_no_icdf example_externals half_field
              one_ray (torch_full 1 1 1 (1 / 2))
              (smoothed_zero_sigmoid_unit half_field
                 1 (le_n 1) eq_refl eq_refl eq_refl))
    as [Hreturns _].
  destruct Hreturns as [base Hd]; [discriminate|].
  exists base.
  rewrite (density_grid_half half_field 1 eq_refl) in Hd.
  change (torch_full 1 1 1 (1 / 2)) with [[[1 / 2]]] in Hd.
  cbn [one_ray frustums_get_positions map] in Hd.
  rewrite grid_sample1_single in Hd. exact Hd.
Defined.

(** C1 as stated fails on the field built from a 1 x 1 x 1 grid of zeros
    with both transitions "sigmoid" and sigma = 1/5, at one ray sample: the
    sampled scalar is 1/2, so the density is the activation of 1/2, while
    sigma * icdf(1/2) is 0 for every inverse CDF that is 0 at the median. *)
Lemma get_density_icdf_counterexample :
  ~ (exists (E : Externals) (fld : TCNNGaussianNeRFField),
        @icdf E (1 / 2) = 0 /\
        @trunc_exp E (1 / 2) <> @trunc_exp E 0 /\
        @init E half_args = Ok fld /\
        @get_density E fld one_ray = @spec_get_density E fld one_ray).
Proof.
  intros (E & fld & Hmedian & Hact & Hinit & Heq).
  destruct (@init_half_args E)
    as (fld' & Hinit' & Hf & Ht & Hg & _ & Hk & Hsig & Hdm).
  rewrite Hinit in Hinit'. apply Ok_inj in Hinit'. subst fld'.
  pose proof (smoothed_zero_sigmoid_unit fld 1 (le_n 1) Hf Ht Hk) as Hs.
  rewrite (get_density_closed_form fld one_ray _ Hs) in Heq
    by discriminate.
  rewrite (spec_get_density_closed_form fld one_ray _ Hs) in Heq
    by discriminate.
  rewrite (density_grid_half fld 1 Hg) in Heq.
  apply Ok_inj in Heq. apply (f_equal fst) in Heq.
  cbn [fst one_ray frustums_get_positions map] in Heq.
  change (torch_full 1 1 1 (1 / 2)) with [[[1 / 2]]] in Heq.
  rewrite grid_sample1_single, Hdm, Hsig, Hmedian in Heq.
  inversion Heq as [Hx].
  apply Hact. replace (1 / 5 * 0) with 0 in Hx by lra. lra.
Qed.

(** ** Radius field and density field *)

(** C10 (amended).  [get_certified_radius] derives the radii and the
    eikonal loss from the Gaussian-blurred f-transitioned grid, without the
    g-transition, whereas [get_density] samples the g-transitioned grid;
    whenever [g_transition_function] is "sigmoid" the grid behind the density
    (of a batch of at least one sample: an empty batch raises) is the
    elementwise image sigmoid(alpha * (s - 1/2)) of the grid s behind the
    radius, and the two grids differ exactly when some element of s is not
    a fixed point of that map. *)
Theorem radius_and_density_grids `{Externals}
    (self : TCNNGaussianNeRFField) (smoothed : vol) :
  assign_smoothed_grid self = Ok (Some smoothed) ->
  g_transition_function self = "sigmoid"%string ->
  let sharpen := fun s => sigmoid (g_transition_alpha self * (s - 1 / 2)) in
  (exists eikonal_loss,
      get_certified_radius self =
      Ok (vmap (fun o => sigma self * icdf o) (interpolate smoothed 2),
          eikonal_loss) /\
      eikonal_loss =
      eikonal_of
        (autograd_grad (output_aux self smoothed) (lattice self)
           (map (fun _ => 1) (output_aux self smoothed (lattice self))))) /\
  arg_maxed_smoothed_grid self (Some smoothed) = Ok (vmap sharpen smoothed) /\
  (forall rs, frustums_get_positions rs <> [] ->
      exists base_mlp_out,
      get_density self rs =
      Ok (map (fun p =>
                 density_multiplier self
                 * trunc_exp (grid_sample1 (vmap sharpen smoothed)
                                           (rescaled_position self p)))
              (frustums_get_positions rs),
          base_mlp_out)) /\
  (vmap sharpen smoothed <> smoothed <->
   ~ vall (fun s => sharpen s = s) smoothed).
Proof.
  intros Hs Hg sharpen.
  assert (Hgrid : density_grid_of self smoothed = vmap sharpen smoothed).
  { unfold density_grid_of. now rewrite Hg. }
  split; [|split; [|split]].
  - eexists. split; [apply (get_certified_radius_closed_form self _ Hs)|].
    reflexivity.
  - now rewrite arg_maxed_density_grid, Hgrid.
  - intros rs Hne. eexists.
    rewrite (get_density_closed_form self rs smoothed Hs Hne), Hgrid.
    reflexivity.
  - now rewrite vmap_fixed_iff.
Qed.

Lemma radius_and_density_grids_witness :
  arg_maxed_smoothed_grid ones_field (Some (torch_full 1 1 1 1))
  = Ok (torch_full 1 1 1 (sigmoid (4 * (1 - 1 / 2)))) /\
  torch_full 1 1 1 (sigmoid (4 * (1 - 1 / 2))) <> torch_full 1 1 1 1.
Proof.
  assert (Hs : assign_smoothed_grid ones_field
               = Ok (Some (torch_full 1 1 1 1))).
  { unfold assign_smoothed_grid.
    cbn [ones_field field_of f_transition_function f].
    cbn [String.eqb Ascii.eqb Bool.eqb].
    rewrite vmap_full.
    rewrite (blur_unit_kernel _ _ 1 1 1); try lia; try reflexivity.
    - unfold relu. rewrite Rmax_right by lra. reflexivity.
    - apply rect_vbuild. }
  destruct (@radius_and_density_grids example_externals ones_field _ Hs eq_refl)
    as (_ & Ha & _ & _).
  split; [exact Ha|].
  intros E. inversion E as [Hx].
  pose proof (sigmoid_lt_1 (4 * (1 - 1 / 2))). lra.
Defined.

(** C10 as stated fails: on the field built from a 1 x 1 x 1 grid of zeros
    with both transitions "sigmoid" and sigma = 1/5 the smoothed grid is 1/2
    everywhere, and so is its g-transition: the two grids coincide. *)
Lemma fields_coincide_counterexample :
  exists fld,
    @init example_externals half_args = Ok fld /\
    g_transition_function fld = "sigmoid"%string /\
    ~ spec_fields_differ fld.
Proof.
  destruct (@init_half_args example_externals)
    as (fld & Hinit & Hf & Ht & Hg & _ & Hk & _).
  exists fld. split; [exact Hinit|]. split; [exact Hg|].
  intros Hspec.
  pose proof (smoothed_zero_sigmoid_unit fld 1 (le_n 1) Hf Ht Hk) as Hs.
  apply (Hspec _ (torch_full 1 1 1 (1 / 2)) Hs); [|reflexivity].
  now rewrite arg_maxed_density_grid, (density_grid_half fld 1 Hg).
Qed.

(** ** The lattice and the eikonal loss *)

Lemma product_row_length (x : R) (ys zs : list R) :
  length (flat_map (fun y => map (fun z => (x, y, z)) zs) ys)
  = (length ys * length zs)%nat.
Proof.
  induction ys as [|y ys IH]; cbn [flat_map length]; [reflexivity|].
  rewrite length_app, length_map, IH. lia.
Qed.

Lemma cartesian_product_length (xs ys zs : list R) :
  length (cartesian_product xs ys zs)
  = (length xs * length ys * length zs)%nat.
Proof.
  unfold cartesian_product.
  induction xs as [|x xs IH]; cbn [flat_map length]; [reflexivity|].
  rewrite length_app. unfold point in *.
  rewrite (product_row_length x ys zs), IH. lia.
Qed.

Lemma cartesian_product_In (xs ys zs : list R) (x y z : R) :
  In (x, y, z) (cartesian_product xs ys zs) <->
  In x xs /\ In y ys /\ In z zs.
Proof.
  unfold cartesian_product. rewrite in_flat_map. split.
  - intros (x' & Hx & Hin). apply in_flat_map in Hin.
    destruct Hin as (y' & Hy & Hin). apply in_map_iff in Hin.
    destruct Hin as (z' & E & Hz). inversion E; subst. auto.
  - intros (Hx & Hy & Hz). exists x. split; [exact Hx|].
    apply in_flat_map. exists y. split; [exact Hy|].
    apply in_map_iff. exists z. auto.
Qed.

Lemma flat_map_nth {A B : Type} (g : A -> list B) (m : nat) (l : list A)
    (i j : nat) (d : B) (dA : A) :
  (forall a, length (g a) = m) -> (i < length l)%nat -> (j < m)%nat ->
  nth (i * m + j) (flat_map g l) d = nth j (g (nth i l dA)) d.
Proof.
  intros Hg. revert i. induction l as [|a l IH]; intros i Hi Hj.
  - simpl in Hi. lia.
  - cbn [flat_map]. destruct i as [|i].
    + rewrite app_nth1 by (rewrite Hg; lia). reflexivity.
    + rewrite app_nth2 by (rewrite Hg; lia). rewrite Hg.
      replace (S i * m + j - m)%nat with (i * m + j)%nat by lia.
      cbn [nth]. apply IH; [simpl in Hi; lia|exact Hj].
Qed.

(** The rows of the product are ordered with the last coordinate running
    fastest, as [arr.reshape(-1, la)] lays them out. *)
Lemma cartesian_product_nth (xs ys zs : list R) (i j l : nat) :
  (i < length xs)%nat -> (j < length ys)%nat -> (l < length zs)%nat ->
  nth (i * (length ys * length zs) + j * length zs + l)
      (cartesian_product xs ys zs) (0, 0, 0)
  = (nth i xs 0, nth j ys 0, nth l zs 0).
Proof.
  intros Hi Hj Hl. unfold cartesian_product.
  assert (Hlt : (j * length zs + l < length ys * length zs)%nat) by nia.
  rewrite <- Nat.add_assoc.
  rewrite (flat_map_nth _ (length ys * length zs) xs i _ _ 0); trivial.
  - rewrite (flat_map_nth _ (length zs) ys j l _ 0); trivial.
    + rewrite (nth_indep _ _ ((fun z => (nth i xs 0, nth j ys 0, z)) 0))
        by (now rewrite length_map).
      now rewrite (map_nth (fun z => (nth i xs 0, nth j ys 0, z))).
    + intros y. now rewrite length_map.
  - intros x. apply product_row_length.
Qed.

Lemma lattice_axis_nth (n i : nat) :
  (2 <= n)%nat -> (i < n)%nat ->
  nth i (linspace (-1) 1 n) 0 = -1 + INR i * (2 / (INR n - 1)) /\
  -1 <= nth i (linspace (-1) 1 n) 0 <= 1.
Proof.
  intros Hn Hi. rewrite linspace_nth by assumption.
  replace (1 - -1) with 2 by lra. split; [reflexivity|].
  assert (Hd : 0 < INR n - 1).
  { apply lt_INR in Hn. simpl in Hn. lra. }
  assert (Hx : 0 <= INR i <= INR n - 1).
  { split; [apply pos_INR|].
    assert (Hle : (i <= n - 1)%nat) by lia.
    apply le_INR in Hle. rewrite minus_INR in Hle by lia. simpl in Hle. lra. }
  assert (Hq : 0 <= INR i * / (INR n - 1) <= 1).
  { split.
    - apply Rmult_le_pos; [lra|]. left. now apply Rinv_0_lt_compat.
    - apply (Rmult_le_reg_r (INR n - 1)); [exact Hd|].
      rewrite Rmult_assoc, Rinv_l by lra. lra. }
  unfold Rdiv. lra.
Qed.

Lemma lattice_axis_ends (n : nat) :
  (2 <= n)%nat ->
  nth 0 (linspace (-1) 1 n) 0 = -1 /\
  nth (n - 1) (linspace (-1) 1 n) 0 = 1.
Proof.
  intros Hn. rewrite !linspace_nth by lia.
  assert (Hd : 0 < INR n - 1).
  { apply lt_INR in Hn. simpl in Hn. lra. }
  rewrite minus_INR by lia. simpl (INR 0). simpl (INR 1).
  split; field; lra.
Qed.

(** C5.  Whenever the smoothed grid is assigned, [get_certified_radius]
    builds the lattice of all triples of the 2R points -1 + 2i/(2R-1),
    i = 0 .. 2R-1, which run from -1 to 1 (R the last size of the grid),
    and returns as eikonal loss the mean over the lattice gradients g of
    (|g|_2 - 1)^2, where the gradients are those of the sampled field
    transformed by sigma * icdf, taken with respect to the lattice
    positions. *)
Theorem get_certified_radius_lattice_eikonal `{Externals}
    (self : TCNNGaussianNeRFField) (smoothed : vol) :
  assign_smoothed_grid self = Ok (Some smoothed) ->
  let n := (2 * dimW (f self))%nat in
  let axis := linspace (-1) 1 n in
  let radius := fun ps =>
    map (fun p => sigma self * icdf (grid_sample1 smoothed p)) ps in
  let sdf_grads :=
    autograd_grad (output_aux self smoothed) (lattice self)
      (map (fun _ => 1) (output_aux self smoothed (lattice self))) in
  (length axis = n /\
   length (lattice self) = (n * n * n)%nat /\
   (forall x y z, In (x, y, z) (lattice self) <->
                  In x axis /\ In y axis /\ In z axis) /\
   (forall i j l, (i < n)%nat -> (j < n)%nat -> (l < n)%nat ->
      nth (i * (n * n) + j * n + l) (lattice self) (0, 0, 0)
      = (nth i axis 0, nth j axis 0, nth l axis 0)) /\
   ((1 <= dimW (f self))%nat ->
    (forall i, (i < n)%nat ->
       nth i axis 0 = -1 + INR i * (2 / (INR n - 1)) /\
       -1 <= nth i axis 0 <= 1) /\
    nth 0 axis 0 = -1 /\ nth (n - 1) axis 0 = 1)) /\
  (forall ps, output_aux self smoothed ps = radius ps) /\
  exists radii,
    get_certified_radius self =
    Ok (radii,
        Rsum (map (fun g => (norm2 g - 1) ^ 2) sdf_grads)
        / INR (length sdf_grads)).
Proof.
  intros Hs n axis radius sdf_grads.
  split; [|split].
  - assert (Hlen : length axis = n) by apply linspace_length.
    split; [exact Hlen|]. split; [|split; [|split]].
    + unfold lattice. fold n axis.
      now rewrite cartesian_product_length, Hlen.
    + intros x y z. apply cartesian_product_In.
    + intros i j l Hi Hj Hl. unfold lattice. fold n axis.
      rewrite <- Hlen at 1 2 3.
      apply cartesian_product_nth; now rewrite Hlen.
    + intros HR. split; [|apply lattice_axis_ends; lia].
      intros i Hi. apply lattice_axis_nth; lia.
  - intros ps. apply output_aux_pointwise.
  - eexists. rewrite (get_certified_radius_closed_form self smoothed Hs).
    unfold eikonal_of, mean. fold sdf_grads. now rewrite length_map.
Qed.

Lemma get_certified_radius_lattice_eikonal_witness :
  length (lattice half_field) = 8%nat /\
  exists radii,
    @get_certified_radius example_externals half_field =
    Ok (radii,
        Rsum (map (fun g => (norm2 g - 1) ^ 2)
                  (map (fun _ : point => (0, 0, 0)) (lattice half_field)))
        / INR (length (map (fun _ : point => (0, 0, 0)) (lattice half_field)))).
Proof.
  destruct (@get_certified_radius_lattice_eikonal example_externals
              half_field (torch_full 1 1 1 (1 / 2))
              (smoothed_zero_sigmoid_unit half_field
                 1 (le_n 1) eq_refl eq_refl eq_refl))
    as ((_ & Hlen & _) & _ & Hr).
  split; [exact Hlen|exact Hr].
Defined.

(** ** The image-metrics pass *)

Lemma get_image_metrics_and_images_except `{Externals}
    (self : GaussianNeRFModel) (outputs : Outputs) (batch : Batch) (e : exn) :
  get_certified_radius (field self) = Raise e ->
  get_image_metrics_and_images self outputs batch =
  (["no certified radii being calculated"%string],
   Raise (UnboundLocalError "radiix_heatmap")).
Proof.
  intros Hraise. unfold get_image_metrics_and_images, try_body.
  rewrite Hraise. reflexivity.
Qed.

Lemma get_image_metrics_and_images_ok `{Externals}
    (self : GaussianNeRFModel) (outputs : Outputs) (batch : Batch)
    (radii : vol) (loss : R) :
  get_certified_radius (field self) = Ok (radii, loss) ->
  exists metrics images,
    get_image_metrics_and_images self outputs batch =
    ([], Ok (metrics, images)) /\
    map fst metrics = ["psnr"; "ssim"; "lpips"]%string /\
    map fst images =
    ["img"; "accumulation"; "depth"; "alive_ray_mask";
     "radiix_heatmap"; "radiiy_heatmap"; "radiiz_heatmap"]%string.
Proof.
  intros Hok. unfold get_image_metrics_and_images, try_body.
  rewrite Hok. cbn [bind fst read_local]. eexists. eexists.
  split; [reflexivity|]. split; reflexivity.
Qed.

(** C3 (the code at the failing input).  With a field whose
    [f_transition_function] is "tanh", [get_certified_radius] raises inside
    the [try] block; the handler prints its message, and the function then
    ends with an [UnboundLocalError] for [radiix_heatmap] instead of
    returning the metrics and images. *)
Theorem get_image_metrics_and_images_unbound_heatmap `{Externals}
    (cfg : Config.t) (grid : vol) (kernel : list R) (occ : OccupancyGrid)
    (outputs : Outputs) (batch : Batch) :
  get_image_metrics_and_images
    {| config := cfg;
       field := field_of grid kernel 1 "tanh" "sigmoid" 4;
       occupancy_grid := occ |}
    outputs batch =
  (["no certified radii being calculated"%string],
   Raise (UnboundLocalError "radiix_heatmap")).
Proof.
  apply (get_image_metrics_and_images_except _ _ _
           (UnboundLocalError "smoothed_grid")).
  cbn [field].
  apply (unrecognized_f_fails_at_query _
           {| frustums_get_positions := [] |}); discriminate.
Qed.

(** ** Sharpness annealing *)

Lemma run_callbacks_before `{Externals} (step : nat) (m : GaussianNeRFModel) :
  run_callbacks get_training_callbacks step BEFORE_TRAIN_ITERATION m =
  (m1 <- update_occupancy_grid step m ;; update_alpha_value step m1).
Proof.
  unfold run_callbacks, get_training_callbacks, run_callback_at_location.
  cbn [fold_left where_to_run existsb location_eqb orb
       update_every_num_iters func bind].
  rewrite Nat.mod_1_r. cbn [Nat.eqb].
  destruct (update_occupancy_grid step m); reflexivity.
Qed.

Lemma run_callbacks_after `{Externals} (step : nat) (m : GaussianNeRFModel) :
  run_callbacks get_training_callbacks step AFTER_TRAIN_ITERATION m = Ok m.
Proof. reflexivity. Qed.





(** Training runs to the end when the collaborators do not raise. *)
Lemma train_total `{Externals} `{Trainer} :
  (forall step fn occ, exists occ', every_n_step step fn occ = Ok occ') ->
  (forall step m, exists p, train_iteration step m = Ok p) ->
  forall N step m, exists m', train N step m = Ok m'.
Proof.
  intros Hocc Hiter N. induction N as [|N IH]; intros step m.
  - exists m. reflexivity.
  - cbn [train]. rewrite run_callbacks_before.
    unfold update_occupancy_grid.
    destruct (Hocc step
                (fun x => get_opacity (field m) x
                            (Config.render_step_size (config m)))
                (occupancy_grid m)) as [occ ->].
    cbn [bind update_alpha_value].
    match goal with
    | |- context [train_iteration step ?m1] =>
        destruct (Hiter step m1) as [p ->]
    end.
    cbn [bind]. rewrite run_callbacks_after. cbn [bind]. apply IH.
Qed.

(** ** The eikonal reduction *)

Lemma Rsum_nonneg (l : list R) : Forall (fun x => 0 <= x) l -> 0 <= Rsum l.
Proof.
  induction 1 as [|a l Ha _ IH]; simpl; lra.
Qed.

Lemma eikonal_of_nonneg (sdf_grads : list point) : 0 <= eikonal_of sdf_grads.
Proof.
  unfold eikonal_of, mean.
  assert (Hs : 0 <= Rsum (map (fun g => (norm2 g - 1) ^ 2) sdf_grads)).
  { apply Rsum_nonneg, Forall_forall. intros x Hx.
    apply in_map_iff in Hx. destruct Hx as (g & <- & _).
    apply pow2_ge_0. }
  destruct sdf_grads as [|g gs].
  - simpl. unfold Rdiv. rewrite Rmult_0_l. lra.
  - apply Rmult_le_pos; [exact Hs|].
    left. apply Rinv_0_lt_compat. apply lt_0_INR. simpl. lia.
Qed.

(** Gradients of unit length everywhere give a loss of 0. *)
Lemma eikonal_of_unit (sdf_grads : list point) :
  Forall (fun g => norm2 g = 1) sdf_grads -> eikonal_of sdf_grads = 0.
Proof.
  intros Hall. unfold eikonal_of, mean.
  assert (Hs : Rsum (map (fun g => (norm2 g - 1) ^ 2) sdf_grads) = 0).
  { induction Hall as [|g gs Hg _ IH]; cbn [map Rsum fold_right];
      [reflexivity|].
    fold (Rsum (map (fun g => (norm2 g - 1) ^ 2) gs)).
    rewrite IH, Hg. lra. }
  rewrite Hs. unfold Rdiv. apply Rmult_0_l.
Qed.

(* ------------------------------------------------------------------ *)
(** * Further properties of the two files *)

(** ** Directions *)

(** X1.  [get_normalized_directions] keeps the number of directions, maps
    directions with coordinates in [-1, 1] to points with coordinates in
    [0, 1], and is undone by d -> 2 d - 1. *)
Theorem get_normalized_directions_range (directions : list point) :
  Forall (point_in (-1) 1) directions ->
  length (get_normalized_directions directions) = length directions /\
  Forall (point_in 0 1) (get_normalized_directions directions) /\
  map (fun '(x, y, z) => (2 * x - 1, 2 * y - 1, 2 * z - 1))
      (get_normalized_directions directions) = directions.
Proof.
  intros Hin. unfold get_normalized_directions.
  split; [apply length_map|]. split.
  - apply Forall_forall. intros q Hq. apply in_map_iff in Hq.
    destruct Hq as ([[x y] z] & <- & Hp).
    rewrite Forall_forall in Hin. specialize (Hin _ Hp).
    unfold point_in in *. lra.
  - rewrite map_map. rewrite <- (map_id directions) at 2.
    apply map_ext. intros [[x y] z]. f_equal; [f_equal|]; field.
Qed.

Lemma get_normalized_directions_range_witness :
  get_normalized_directions [(-1, 0, 1)] = [((-1 + 1) / 2, (0 + 1) / 2, (1 + 1) / 2)] /\
  Forall (point_in 0 1) (get_normalized_directions [(-1, 0, 1)]).
Proof.
  split; [reflexivity|].
  apply (get_normalized_directions_range [(-1, 0, 1)]).
  constructor; [|constructor]. unfold point_in. lra.
Defined.

(** ** More on the Gaussian kernel *)

Lemma Rsum_ge_member (l : list R) (x : R) :
  Forall (fun y => 0 < y) l -> In x l -> x <= Rsum l.
Proof.
  intros Hall Hin. induction Hall as [|a l Ha Hl IH]; [contradiction|].
  simpl. assert (0 <= Rsum l).
  { destruct l; [simpl; lra|]. left. apply Rsum_pos; [discriminate|exact Hl]. }
  destruct Hin as [<-|Hin]; [lra|]. specialize (IH Hin). lra.
Qed.

Lemma kernel_support_rev (ks : Z) :
  Z.odd ks = true -> (1 <= ks)%Z ->
  rev (kernel_support ks) = map Ropp (kernel_support ks)
  \/ ks = 1%Z.
Proof.
  intros Hodd Hge. destruct (Z.eq_dec ks 1) as [->|Hne]; [now right|left].
  assert (H3 : (3 <= ks)%Z).
  { apply Z.odd_spec in Hodd. destruct Hodd as [m Hm]. lia. }
  apply (nth_ext _ _ 0 0).
  - now rewrite length_rev, length_map.
  - intros i Hi. rewrite length_rev, kernel_support_length in Hi.
    rewrite rev_nth by (rewrite kernel_support_length; exact Hi).
    rewrite kernel_support_length.
    rewrite (nth_indep (map Ropp (kernel_support ks)) 0 (Ropp 0))
      by (rewrite length_map, kernel_support_length; exact Hi).
    rewrite (map_nth Ropp).
    replace (Z.to_nat ks - S i)%nat with (Z.to_nat ks - 1 - i)%nat by lia.
    rewrite !kernel_support_nth by (trivial; lia).
    rewrite minus_INR by lia. rewrite minus_INR by lia.
    rewrite INR_to_nat by lia. simpl (INR 1).
    assert (3 <= IZR ks) by (apply IZR_le in H3; exact H3).
    field. lra.
Qed.

Lemma gauss_values_rev (sigma : R) (ks : Z) :
  Z.odd ks = true -> (1 <= ks)%Z ->
  rev (gauss_values sigma (kernel_support ks))
  = gauss_values sigma (kernel_support ks).
Proof.
  intros Hodd Hge. unfold gauss_values. rewrite <- map_rev.
  destruct (kernel_support_rev ks Hodd Hge) as [-> | ->].
  - rewrite map_map. apply map_ext. intros t. f_equal.
    unfold Rdiv. ring.
  - reflexivity.
Qed.

(** The kernel that [make_gaussian_kernel] returns for sigma > 0. *)
Lemma make_gaussian_kernel_facts (sigma : R) (kernel : list R) :
  0 < sigma -> make_gaussian_kernel sigma = Ok kernel ->
  Forall (fun w => 0 < w <= 1) kernel /\ rev kernel = kernel /\
  Rsum kernel = 1 /\ Nat.odd (length kernel) = true.
Proof.
  intros Hs Hk.
  pose proof (make_gaussian_kernel_odd sigma kernel Hs Hk) as Hodd.
  destruct (kernel_size_odd sigma Hs) as (Hge & Hzodd & _).
  apply (make_gaussian_kernel_inv sigma kernel Hs) in Hk.
  set (ts := kernel_support (kernel_size sigma)) in *.
  assert (Hne : ts <> []).
  { intros E. pose proof (kernel_support_length (kernel_size sigma)) as Hl.
    fold ts in Hl. rewrite E in Hl. simpl in Hl. lia. }
  pose proof (gauss_sum_pos sigma ts Hne) as HS.
  subst kernel. split; [|split; [|split]].
  - apply Forall_forall. intros w Hw. apply in_map_iff in Hw.
    destruct Hw as (g & <- & Hg).
    assert (Hpos : 0 < g).
    { unfold gauss_values in Hg. apply in_map_iff in Hg.
      destruct Hg as (t & <- & _). apply exp_pos. }
    assert (Hle : g <= Rsum (gauss_values sigma ts)).
    { apply Rsum_ge_member; [apply exp_map_pos|exact Hg]. }
    split.
    + apply Rdiv_lt_0_compat; assumption.
    + apply (Rmult_le_reg_r (Rsum (gauss_values sigma ts))); [exact HS|].
      unfold Rdiv. rewrite Rmult_assoc, Rinv_l by lra. lra.
  - rewrite <- map_rev. unfold ts.
    now rewrite gauss_values_rev.
  - apply Rsum_normalized. lra.
  - exact Hodd.
Qed.

(** X2.  Whenever [make_gaussian_kernel] returns a kernel for a
    sigma > 0 (that is, unless the kernel is nan), every entry lies in
    (0, 1] and the kernel reads the same in both directions. *)
Theorem make_gaussian_kernel_positive_symmetric (sigma : R) (kernel : list R) :
  0 < sigma -> make_gaussian_kernel sigma = Ok kernel ->
  Forall (fun w => 0 < w <= 1) kernel /\ rev kernel = kernel.
Proof.
  intros Hs Hk.
  destruct (make_gaussian_kernel_facts sigma kernel Hs Hk) as (H1 & H2 & _).
  split; assumption.
Qed.

Lemma make_gaussian_kernel_positive_symmetric_witness :
  exists kernel,
    make_gaussian_kernel 1 = Ok kernel /\ length kernel = 5%nat /\
    Forall (fun w => 0 < w <= 1) kernel /\ rev kernel = kernel.
Proof.
  destruct make_gaussian_kernel_1_ok as (kernel & Hk & Hlen).
  exists kernel. split; [exact Hk|]. split; [exact Hlen|].
  apply (make_gaussian_kernel_positive_symmetric 1 kernel); [lra|exact Hk].
Defined.

Lemma make_gaussian_kernel_small (sigma : R) :
  0 < sigma < 2 / 5 -> 1 / (2 * sigma ^ 2) <= exp_underflow ->
  make_gaussian_kernel sigma = Ok [1].
Proof.
  intros Hs Hfit. pose proof (kernel_size_small sigma Hs) as Hk.
  rewrite make_gaussian_kernel_ok by (try lra; now right).
  rewrite Hk, kernel_support_one.
  unfold gauss_values. cbn [map Rsum fold_right].
  do 2 f_equal. field.
  pose proof (exp_pos (- (-1 / sigma) ^ 2 / 2)). lra.
Qed.

(** X3.  When the constructor builds a field with a kernel of real
    entries for 0 < sigma < 2/5, the single sample exp(-1/(2 sigma^2)) of
    the bell has not underflowed (1/(2 sigma^2) <= 150 ln 2; below that the
    stored kernel is nan, and the outcome of [init] is [Nan], not [Ok]),
    the stored kernel is [1], and [apply_3d_gaussian_blur] returns every
    volume of positive sizes unchanged; from sigma = 2/5 on the kernel has
    at least three entries. *)
Theorem small_sigma_disables_blur `{Externals}
    (a : Args.t) (fld : TCNNGaussianNeRFField) :
  init a = Ok fld ->
  (0 < Args.sigma a < 2 / 5 ->
   1 / (2 * Args.sigma a ^ 2) <= exp_underflow /\
   gaussian_kernel fld = [1] /\
   forall x D H W,
     rect D H W x -> (1 <= D)%nat -> (1 <= H)%nat -> (1 <= W)%nat ->
     apply_3d_gaussian_blur fld x = Ok x) /\
  (2 / 5 <= Args.sigma a -> (3 <= length (gaussian_kernel fld))%nat).
Proof.
  intros Hinit. apply init_inv in Hinit.
  destruct Hinit as (kernel & Hk & ->). cbn [gaussian_kernel]. split.
  - intros Hs.
    assert (Hfit : 1 / (2 * Args.sigma a ^ 2) <= exp_underflow).
    { destruct (make_gaussian_kernel_survives _ _ (proj1 Hs) Hk)
        as [Hlarge | Hfit]; [lra|exact Hfit]. }
    split; [exact Hfit|].
    rewrite make_gaussian_kernel_small in Hk by assumption.
    apply Ok_inj in Hk. subst kernel. split; [reflexivity|].
    intros x D H0 W Hr HD HH HW.
    now apply (blur_unit_kernel _ x D H0 W).
  - intros Hs. pose proof (kernel_size_large _ Hs) as H3.
    assert (Hpos : 0 < Args.sigma a) by lra.
    apply (make_gaussian_kernel_inv _ _ Hpos) in Hk.
    subst kernel. unfold gauss_values.
    rewrite !length_map, kernel_support_length. lia.
Qed.

Lemma small_sigma_disables_blur_witness :
  exists fld,
    @init example_externals half_args = Ok fld /\
    gaussian_kernel fld = [1] /\
    apply_3d_gaussian_blur fld (torch_full 2 2 2 1) = Ok (torch_full 2 2 2 1).
Proof.
  destruct (@init_half_args example_externals) as (fld & Hinit & _).
  exists fld. split; [exact Hinit|].
  destruct (@small_sigma_disables_blur example_externals half_args fld Hinit)
    as [Hsmall _].
  destruct Hsmall as (_ & Hk & Hblur); [cbn; lra|].
  split; [exact Hk|].
  apply (Hblur _ 2%nat 2%nat 2%nat); [apply rect_vbuild|lia..].
Defined.

(** ** Bounds on the blurred volume *)

Lemma sum_n_le (n : nat) (g h : nat -> R) :
  (forall i, (i < n)%nat -> g i <= h i) -> sum_n n g <= sum_n n h.
Proof.
  induction n as [|n IH]; intros Hle.
  - unfold sum_n. simpl. lra.
  - rewrite !sum_n_S.
    assert (sum_n n g <= sum_n n h) by (apply IH; intros; apply Hle; lia).
    assert (g n <= h n) by (apply Hle; lia). lra.
Qed.

Lemma sum_n_lt (n : nat) (g h : nat -> R) (i0 : nat) :
  (forall i, (i < n)%nat -> g i <= h i) ->
  (i0 < n)%nat -> g i0 < h i0 -> sum_n n g < sum_n n h.
Proof.
  induction n as [|n IH]; intros Hle Hi0 Hlt; [lia|].
  rewrite !sum_n_S.
  assert (Hn : g n <= h n) by (apply Hle; lia).
  destruct (Nat.eq_dec i0 n) as [->|Hne].
  - assert (sum_n n g <= sum_n n h)
      by (apply sum_n_le; intros; apply Hle; lia).
    lra.
  - assert (sum_n n g < sum_n n h)
      by (apply IH; [intros; apply Hle; lia|lia|exact Hlt]).
    lra.
Qed.

Lemma sum3_le (n : nat) (A B : nat -> nat -> nat -> R) :
  (forall i j l, (i < n)%nat -> (j < n)%nat -> (l < n)%nat ->
                 A i j l <= B i j l) ->
  sum_n n (fun i => sum_n n (fun j => sum_n n (fun l => A i j l)))
  <= sum_n n (fun i => sum_n n (fun j => sum_n n (fun l => B i j l))).
Proof.
  intros Hle. apply sum_n_le. intros i Hi. apply sum_n_le. intros j Hj.
  apply sum_n_le. intros l Hl. now apply Hle.
Qed.

Lemma sum3_lt (n : nat) (A B : nat -> nat -> nat -> R) (i0 j0 l0 : nat) :
  (forall i j l, (i < n)%nat -> (j < n)%nat -> (l < n)%nat ->
                 A i j l <= B i j l) ->
  (i0 < n)%nat -> (j0 < n)%nat -> (l0 < n)%nat ->
  A i0 j0 l0 < B i0 j0 l0 ->
  sum_n n (fun i => sum_n n (fun j => sum_n n (fun l => A i j l)))
  < sum_n n (fun i => sum_n n (fun j => sum_n n (fun l => B i j l))).
Proof.
  intros Hle Hi0 Hj0 Hl0 Hlt.
  apply (sum_n_lt _ _ _ i0); [|exact Hi0|].
  - intros i Hi. apply sum_n_le. intros j Hj. apply sum_n_le.
    intros l Hl. now apply Hle.
  - apply (sum_n_lt _ _ _ j0); [|exact Hj0|].
    + intros j Hj. apply sum_n_le. intros l Hl. now apply Hle.
    + apply (sum_n_lt _ _ _ l0); [|exact Hl0|exact Hlt].
      intros l Hl. now apply Hle.
Qed.

Lemma Rsum_sum_n (k : list R) :
  sum_n (length k) (fun i => nth i k 0) = Rsum k.
Proof.
  unfold sum_n. f_equal.
  apply (nth_ext _ _ 0 0).
  - now rewrite length_map, length_seq.
  - intros i Hi. rewrite length_map, length_seq in Hi.
    now rewrite nth_map_seq.
Qed.

Lemma sum_n_scal_r (n : nat) (c : R) (g : nat -> R) :
  sum_n n (fun i => g i * c) = sum_n n g * c.
Proof.
  rewrite <- (Rmult_comm c), <- sum_n_scal. apply sum_n_ext.
  intros i _. ring.
Qed.

(** The weights of the separable kernel sum to the cube of its sum. *)
Lemma weights_sum (k : list R) (c : R) :
  sum_n (length k) (fun i => sum_n (length k) (fun j =>
    sum_n (length k) (fun l => nth i k 0 * nth j k 0 * nth l k 0 * c)))
  = Rsum k * Rsum k * Rsum k * c.
Proof.
  rewrite <- !(Rsum_sum_n k).
  rewrite (sum_n_ext _ _ (fun i => nth i k 0 *
             (sum_n (length k) (fun i => nth i k 0)
              * sum_n (length k) (fun i => nth i k 0) * c))).
  - rewrite sum_n_scal_r. ring.
  - intros i _.
    rewrite (sum_n_ext _ _ (fun j => nth j k 0 *
               (nth i k 0 * sum_n (length k) (fun i => nth i k 0) * c))).
    + rewrite sum_n_scal_r. ring.
    + intros j _.
      rewrite (sum_n_ext _ _ (fun l => nth l k 0 * (nth i k 0 * nth j k 0 * c))).
      * rewrite sum_n_scal_r. ring.
      * intros l _. ring.
Qed.

Lemma nth_positive (k : list R) (i : nat) :
  Forall (fun w => 0 < w) k -> (i < length k)%nat -> 0 < nth i k 0.
Proof.
  intros Hall Hi. rewrite Forall_forall in Hall. apply Hall. now apply nth_In.
Qed.

Lemma vall_vget (P : R -> Prop) (D H W : nat) (x : vol) (a b c : nat) :
  rect D H W x -> vall P x ->
  (a < D)%nat -> (b < H)%nat -> (c < W)%nat -> P (vget x a b c).
Proof.
  intros [HD Hrect] Hall Ha Hb Hc. unfold vget, vall in *.
  rewrite Forall_forall in Hall, Hrect.
  assert (Hpl : In (nth a x []) x) by (apply nth_In; lia).
  destruct (Hrect _ Hpl) as [HH Hrows].
  specialize (Hall _ Hpl). rewrite Forall_forall in Hall, Hrows.
  assert (Hr : In (nth b (nth a x []) []) (nth a x []))
    by (apply nth_In; lia).
  specialize (Hrows _ Hr). specialize (Hall _ Hr).
  rewrite Forall_forall in Hall. apply Hall. apply nth_In. lia.
Qed.

(** A padded read is 0 or an element of the volume. *)
Lemma padded_cases (P : R -> Prop) (D H W : nat) (x : vol)
    (pd ph pw u v t : nat) :
  rect D H W x -> vall P x ->
  padded x pd ph pw u v t = 0 \/ P (padded x pd ph pw u v t).
Proof.
  intros Hr Hall. unfold padded.
  destruct ((pd <=? u) && (ph <=? v) && (pw <=? t))%nat; [|now left].
  destruct (Nat.lt_ge_cases (u - pd) D);
    [destruct (Nat.lt_ge_cases (v - ph) H);
       [destruct (Nat.lt_ge_cases (t - pw) W)|]|].
  - right. now apply (vall_vget P D H W).
  - left. apply (rect_vget_outside D H W); auto.
  - left. apply (rect_vget_outside D H W); auto.
  - left. apply (rect_vget_outside D H W); auto.
Qed.

(** The read at the centre of the stencil is the voxel itself. *)
Lemma padded_centre (x : vol) (p a b c : nat) :
  padded x p p p (a + p) (b + p) (c + p) = vget x a b c.
Proof.
  unfold padded.
  replace ((p <=? a + p) && (p <=? b + p) && (p <=? c + p))%nat with true
    by (symmetry; rewrite !andb_true_iff, !Nat.leb_le; lia).
  now rewrite !Nat.add_sub.
Qed.

(** A blurred value lies between 0 and the bound of the volume; strictly
    so when the kernel is positive and the volume strictly inside. *)
Lemma full_sum_bounds (k : list R) (x : vol) (D H W : nat) (M : R)
    (a b c : nat) :
  rect D H W x -> (a < D)%nat -> (b < H)%nat -> (c < W)%nat ->
  Nat.odd (length k) = true ->
  Forall (fun w => 0 < w) k -> Rsum k = 1 ->
  (vall (fun v => 0 <= v <= M) x -> 0 <= full_sum k x a b c <= M) /\
  (vall (fun v => 0 < v < M) x -> 0 < full_sum k x a b c < M).
Proof.
  intros Hr Ha Hb Hc Hodd Hpos Hsum.
  pose proof (odd_half _ Hodd) as HK.
  set (p := (length k / 2)%nat) in *.
  assert (Hp : (p < length k)%nat) by lia.
  assert (Hw : forall i j l, (i < length k)%nat -> (j < length k)%nat ->
             (l < length k)%nat -> 0 < nth i k 0 * nth j k 0 * nth l k 0).
  { intros i j l Hi Hj Hl.
    repeat apply Rmult_lt_0_compat; now apply nth_positive. }
  pose (W3 := fun m : R =>
    sum_n (length k) (fun i => sum_n (length k) (fun j =>
      sum_n (length k) (fun l => nth i k 0 * nth j k 0 * nth l k 0 * m)))).
  assert (HW3 : forall m, W3 m = m).
  { intros m. unfold W3. rewrite weights_sum, Hsum. ring. }
  unfold full_sum. fold p. split.
  - intros Hall.
    assert (HM : 0 <= M).
    { pose proof (vall_vget _ D H W x a b c Hr Hall Ha Hb Hc) as Hv.
      cbv beta in Hv. lra. }
    assert (Hpad : forall u v t, 0 <= padded x p p p u v t <= M).
    { intros u v t.
      destruct (padded_cases _ D H W x p p p u v t Hr Hall) as [-> | Hin];
        [lra|exact Hin]. }
    split.
    + apply Rle_trans with (W3 0); [rewrite HW3; lra|].
      unfold W3. apply sum3_le. intros i j l Hi Hj Hl.
      specialize (Hw i j l Hi Hj Hl).
      specialize (Hpad (a + i) (b + j) (c + l))%nat.
      apply Rmult_le_compat_l; lra.
    + apply Rle_trans with (W3 M); [|rewrite HW3; lra].
      unfold W3. apply sum3_le. intros i j l Hi Hj Hl.
      specialize (Hw i j l Hi Hj Hl).
      specialize (Hpad (a + i) (b + j) (c + l))%nat.
      apply Rmult_le_compat_l; lra.
  - intros Hall.
    pose proof (vall_vget _ D H W x a b c Hr Hall Ha Hb Hc) as Hv.
    cbv beta in Hv.
    assert (Hpad : forall u v t, 0 <= padded x p p p u v t < M).
    { intros u v t.
      destruct (padded_cases _ D H W x p p p u v t Hr Hall) as [-> | Hin];
        [lra|cbv beta in Hin; lra]. }
    split.
    + apply Rle_lt_trans with (W3 0); [rewrite HW3; lra|].
      unfold W3. apply (sum3_lt _ _ _ p p p); trivial.
      * intros i j l Hi Hj Hl.
        specialize (Hw i j l Hi Hj Hl).
        specialize (Hpad (a + i) (b + j) (c + l))%nat.
        apply Rmult_le_compat_l; lra.
      * rewrite padded_centre. specialize (Hw p p p Hp Hp Hp).
        apply Rmult_lt_compat_l; lra.
    + apply Rlt_le_trans with (W3 M); [|rewrite HW3; lra].
      unfold W3. apply (sum3_lt _ _ _ p p p); trivial.
      * intros i j l Hi Hj Hl.
        specialize (Hw i j l Hi Hj Hl).
        specialize (Hpad (a + i) (b + j) (c + l))%nat.
        apply Rmult_le_compat_l; lra.
      * specialize (Hw p p p Hp Hp Hp).
        specialize (Hpad (a + p) (b + p) (c + p))%nat.
        apply Rmult_lt_compat_l; lra.
Qed.

Lemma vall_vbuild_inv (P : R -> Prop) (D H W : nat)
    (g : nat -> nat -> nat -> R) (a b c : nat) :
  vall P (vbuild D H W g) ->
  (a < D)%nat -> (b < H)%nat -> (c < W)%nat -> P (g a b c).
Proof.
  intros Hall Ha Hb Hc.
  rewrite <- (vget_vbuild D H W g a b c) by assumption.
  apply (vall_vget P D H W); auto using rect_vbuild.
Qed.

(** X5.  With the kernel that [make_gaussian_kernel] returns for a
    positive sigma, blurring never leaves the range of the input: a volume
    (of positive sizes) with values in [0, M] is blurred into a volume of
    the same sizes with values in [0, M]. *)
Theorem apply_3d_gaussian_blur_keeps_bounds
    (self : TCNNGaussianNeRFField) (s : R) (x : vol) (D H W : nat) (M : R) :
  0 < s -> make_gaussian_kernel s = Ok (gaussian_kernel self) ->
  rect D H W x -> (1 <= D)%nat -> (1 <= H)%nat -> (1 <= W)%nat ->
  vall (fun v => 0 <= v <= M) x ->
  exists y,
    apply_3d_gaussian_blur self x = Ok y /\ rect D H W y /\
    vall (fun v => 0 <= v <= M) y.
Proof.
  intros Hs Hk Hr HD HH HW Hall.
  destruct (make_gaussian_kernel_facts s _ Hs Hk) as (Hpos & _ & Hsum & Hodd).
  eexists. split; [now apply (blur_closed_form self x D H W)|].
  split; [apply rect_vbuild|].
  apply vall_vbuild. intros a b c Ha Hb Hc.
  apply (full_sum_bounds _ x D H W M a b c); trivial.
  eapply Forall_impl; [|exact Hpos]. cbv beta. intros w Hw. lra.
Qed.

Lemma apply_3d_gaussian_blur_keeps_bounds_witness :
  exists fld y,
    @init example_externals zeros_args = Ok fld /\
    length (gaussian_kernel fld) = 5%nat /\
    apply_3d_gaussian_blur fld (torch_full 4 4 4 1) = Ok y /\
    rect 4 4 4 y /\ vall (fun v => 0 <= v <= 1) y.
Proof.
  destruct (@init_zeros_args example_externals) as (fld & Hinit & _).
  pose proof Hinit as Hinv. apply init_inv in Hinv.
  destruct Hinv as (kernel & Hk & Hfld).
  assert (Hkf : make_gaussian_kernel 1 = Ok (gaussian_kernel fld))
    by (rewrite Hfld; exact Hk).
  destruct (apply_3d_gaussian_blur_keeps_bounds fld 1 (torch_full 4 4 4 1)
              4 4 4 1 ltac:(lra) Hkf (rect_vbuild 4 4 4 _)
              ltac:(lia) ltac:(lia) ltac:(lia))
    as (y & Hy & Hrect & Hall).
  { apply vall_vbuild. intros. lra. }
  exists fld, y. split; [exact Hinit|]. split.
  { destruct make_gaussian_kernel_1_ok as (k' & Hk' & Hlen).
    rewrite Hkf in Hk'. apply Ok_inj in Hk'. now rewrite Hk'. }
  split; [exact Hy|]. split; [exact Hrect|exact Hall].
Defined.

(** ** A constant grid under zero padding *)

Lemma padded_outside (D H W : nat) (x : vol) (pd ph pw u v t : nat) :
  rect D H W x ->
  (u < pd \/ D + pd <= u \/ v < ph \/ H + ph <= v \/
   t < pw \/ W + pw <= t)%nat ->
  padded x pd ph pw u v t = 0.
Proof.
  intros Hr Hout. unfold padded.
  destruct ((pd <=? u) && (ph <=? v) && (pw <=? t))%nat eqn:E;
    [|reflexivity].
  rewrite !andb_true_iff, !Nat.leb_le in E.
  apply (rect_vget_outside D H W); [exact Hr|]. lia.
Qed.

Lemma padded_full_inside (n : nat) (c : R) (p u v t : nat) :
  (p <= u < n + p)%nat -> (p <= v < n + p)%nat -> (p <= t < n + p)%nat ->
  padded (torch_full n n n c) p p p u v t = c.
Proof.
  intros Hu Hv Ht. unfold padded.
  replace ((p <=? u) && (p <=? v) && (p <=? t))%nat with true
    by (symmetry; rewrite !andb_true_iff, !Nat.leb_le; lia).
  unfold torch_full. apply vget_vbuild; lia.
Qed.

(** X6.  Blurring a constant grid c > 0 (kernel of a positive sigma, of
    half-width p = len(k) // 2): a voxel at least p away from every face
    keeps the value c, and a voxel closer than p to some face gets a value
    strictly below c, because of the zero padding. *)
Theorem apply_3d_gaussian_blur_constant_grid
    (self : TCNNGaussianNeRFField) (s : R) (n : nat) (c : R) :
  0 < s -> make_gaussian_kernel s = Ok (gaussian_kernel self) ->
  (1 <= n)%nat -> 0 < c ->
  let p := (length (gaussian_kernel self) / 2)%nat in
  exists y,
    apply_3d_gaussian_blur self (torch_full n n n c) = Ok y /\
    (forall a b d, (p <= a)%nat -> (a + p < n)%nat ->
                   (p <= b)%nat -> (b + p < n)%nat ->
                   (p <= d)%nat -> (d + p < n)%nat ->
                   vget y a b d = c) /\
    (forall a b d, (a < n)%nat -> (b < n)%nat -> (d < n)%nat ->
                   (a < p \/ n <= a + p \/ b < p \/ n <= b + p \/
                    d < p \/ n <= d + p)%nat ->
                   vget y a b d < c).
Proof.
  intros Hs Hk Hn Hc p.
  destruct (make_gaussian_kernel_facts s _ Hs Hk) as (Hpos & _ & Hsum & Hodd).
  set (k := gaussian_kernel self) in *.
  pose proof (odd_half _ Hodd) as HK. fold p in HK.
  assert (Hpos' : Forall (fun w => 0 < w) k).
  { eapply Forall_impl; [|exact Hpos]. cbv beta. intros w Hw. lra. }
  assert (Hw : forall i j l, (i < length k)%nat -> (j < length k)%nat ->
             (l < length k)%nat -> 0 < nth i k 0 * nth j k 0 * nth l k 0).
  { intros i j l Hi Hj Hl.
    repeat apply Rmult_lt_0_compat; now apply nth_positive. }
  pose (W3 := fun m : R =>
    sum_n (length k) (fun i => sum_n (length k) (fun j =>
      sum_n (length k) (fun l => nth i k 0 * nth j k 0 * nth l k 0 * m)))).
  assert (HW3 : forall m, W3 m = m).
  { intros m. unfold W3. rewrite weights_sum, Hsum. ring. }
  eexists. split.
  { apply (blur_closed_form self _ n n n); try assumption.
    apply rect_vbuild. }
  fold k. split.
  - intros a b d Ha1 Ha2 Hb1 Hb2 Hd1 Hd2.
    rewrite vget_vbuild by lia. unfold full_sum. fold p.
    transitivity (W3 c); [|apply HW3]. unfold W3.
    apply sum_n_ext. intros i Hi. apply sum_n_ext. intros j Hj.
    apply sum_n_ext. intros l Hl.
    rewrite padded_full_inside by lia. reflexivity.
  - intros a b d Ha Hb Hd Hface.
    rewrite vget_vbuild by lia. unfold full_sum. fold p.
    apply Rlt_le_trans with (W3 c); [|rewrite HW3; lra].
    unfold W3.
    assert (Hle : forall i j l,
               (i < length k)%nat -> (j < length k)%nat ->
               (l < length k)%nat ->
               nth i k 0 * nth j k 0 * nth l k 0
               * padded (torch_full n n n c) p p p (a + i) (b + j) (d + l)
               <= nth i k 0 * nth j k 0 * nth l k 0 * c).
    { intros i j l Hi Hj Hl. specialize (Hw i j l Hi Hj Hl).
      destruct (padded_full c n n n p p p (a + i) (b + j) (d + l))
        as [-> | ->]; [|lra].
      apply Rmult_le_compat_l; lra. }
    assert (Hzero : forall i j l,
               (i < length k)%nat -> (j < length k)%nat ->
               (l < length k)%nat ->
               padded (torch_full n n n c) p p p (a + i) (b + j) (d + l) = 0 ->
               nth i k 0 * nth j k 0 * nth l k 0
               * padded (torch_full n n n c) p p p (a + i) (b + j) (d + l)
               < nth i k 0 * nth j k 0 * nth l k 0 * c).
    { intros i j l Hi Hj Hl ->. specialize (Hw i j l Hi Hj Hl).
      apply Rmult_lt_compat_l; lra. }
    assert (Hout : forall u v t,
               (u < p \/ n + p <= u \/ v < p \/ n + p <= v \/
                t < p \/ n + p <= t)%nat ->
               padded (torch_full n n n c) p p p u v t = 0).
    { intros u v t. apply (padded_outside n n n). apply rect_vbuild. }
    destruct Hface as [F|[F|[F|[F|[F|F]]]]].
    + apply (sum3_lt _ _ _ 0%nat 0%nat 0%nat); trivial; try lia.
      apply Hzero; try lia. apply Hout. lia.
    + apply (sum3_lt _ _ _ (2 * p)%nat 0%nat 0%nat); trivial; try lia.
      apply Hzero; try lia. apply Hout. lia.
    + apply (sum3_lt _ _ _ 0%nat 0%nat 0%nat); trivial; try lia.
      apply Hzero; try lia. apply Hout. lia.
    + apply (sum3_lt _ _ _ 0%nat (2 * p)%nat 0%nat); trivial; try lia.
      apply Hzero; try lia. apply Hout. lia.
    + apply (sum3_lt _ _ _ 0%nat 0%nat 0%nat); trivial; try lia.
      apply Hzero; try lia. apply Hout. lia.
    + apply (sum3_lt _ _ _ 0%nat 0%nat (2 * p)%nat); trivial; try lia.
      apply Hzero; try lia. apply Hout. lia.
Qed.

Lemma apply_3d_gaussian_blur_constant_grid_witness :
  exists fld y,
    @init example_externals zeros_args = Ok fld /\
    apply_3d_gaussian_blur fld (torch_full 4 4 4 1) = Ok y /\
    vget y 0 0 0 < 1.
Proof.
  destruct (@init_zeros_args example_externals) as (fld & Hinit & _).
  pose proof Hinit as Hinv. apply init_inv in Hinv.
  destruct Hinv as (kernel & Hk & Hfld).
  assert (Hkf : make_gaussian_kernel 1 = Ok (gaussian_kernel fld))
    by (rewrite Hfld; exact Hk).
  destruct (apply_3d_gaussian_blur_constant_grid fld 1 4 1
              ltac:(lra) Hkf ltac:(lia) ltac:(lra))
    as (y & Hy & _ & Hnear).
  exists fld, y. split; [exact Hinit|]. split; [exact Hy|].
  apply Hnear; try lia. left.
  destruct make_gaussian_kernel_1_ok as (k' & Hk' & Hlen).
  rewrite Hkf in Hk'. apply Ok_inj in Hk'. rewrite Hk', Hlen.
  cbn. lia.
Defined.

(** ** Trilinear sampling stays within the range of the volume *)

Lemma axis_floor (coord : R) (size : nat) :
  -1 <= coord <= 1 -> (1 <= size)%nat ->
  let ix := unnormalize coord size in
  (0 <= Int_part ix < Z.of_nat size)%Z /\
  0 <= ix - IZR (Int_part ix) < 1 /\
  (ix - IZR (Int_part ix) = 0 \/ (Int_part ix + 1 < Z.of_nat size)%Z).
Proof.
  intros Hc Hsize ix.
  assert (Hs : 1 <= INR size) by (apply le_INR in Hsize; exact Hsize).
  assert (Hix : 0 <= ix <= INR size - 1).
  { unfold ix, unnormalize. split.
    - apply Rmult_le_pos; lra.
    - replace (INR size - 1) with (1 * (INR size - 1)) at 2 by ring.
      apply Rmult_le_compat_r; lra. }
  destruct (base_Int_part ix) as [Hlo Hhi].
  pose proof (Int_part_nonneg ix (proj1 Hix)) as Hn.
  assert (Hle : IZR (Int_part ix) <= IZR (Z.of_nat size - 1)).
  { rewrite minus_IZR, <- INR_IZR_INZ. lra. }
  apply le_IZR in Hle.
  split; [lia|]. split; [lra|].
  destruct (Z.eq_dec (Int_part ix) (Z.of_nat size - 1)) as [E|Hne]; [|right; lia].
  left. rewrite E, minus_IZR, <- INR_IZR_INZ.
  rewrite E, minus_IZR, <- INR_IZR_INZ in Hlo. lra.
Qed.

Lemma lerp_bounds (lo hi w a b : R) :
  0 <= w < 1 -> lo < a < hi -> (w = 0 \/ lo < b < hi) ->
  lo < (1 - w) * a + w * b < hi.
Proof.
  intros Hw Ha [-> | Hb]; [lra|].
  assert (0 < (1 - w) * (a - lo)) by (apply Rmult_lt_0_compat; lra).
  assert (0 <= w * (b - lo)) by (apply Rmult_le_pos; lra).
  assert (0 < (1 - w) * (hi - a)) by (apply Rmult_lt_0_compat; lra).
  assert (0 <= w * (hi - b)) by (apply Rmult_le_pos; lra).
  lra.
Qed.

Lemma corner_inside (P : R -> Prop) (D H W : nat) (v : vol) (iz iy ix : Z) :
  rect D H W v -> (1 <= D)%nat -> (1 <= H)%nat -> vall P v ->
  (0 <= iz < Z.of_nat D)%Z -> (0 <= iy < Z.of_nat H)%Z ->
  (0 <= ix < Z.of_nat W)%Z ->
  P (corner v iz iy ix).
Proof.
  intros Hr HD HH Hall Hz Hy Hx. unfold corner.
  destruct (rect_dims D H W v Hr HD HH) as (-> & -> & ->).
  replace ((0 <=? iz) && (iz <? Z.of_nat D) && (0 <=? iy)
           && (iy <? Z.of_nat H) && (0 <=? ix) && (ix <? Z.of_nat W))%Z
    with true
    by (symmetry; rewrite !andb_true_iff, !Z.leb_le, !Z.ltb_lt; lia).
  apply (vall_vget P D H W); trivial; lia.
Qed.

(** Sampling inside the cube gives a value strictly between the bounds of
    the volume. *)
Lemma grid_sample1_bounds (D H W : nat) (v : vol) (lo hi : R) (p : point) :
  rect D H W v -> (1 <= D)%nat -> (1 <= H)%nat -> (1 <= W)%nat ->
  vall (fun r => lo < r < hi) v -> point_in (-1) 1 p ->
  lo < grid_sample1 v p < hi.
Proof.
  intros Hr HD HH HW Hall Hp. destruct p as [[x y] z].
  destruct Hp as (Hx & Hy & Hz). unfold grid_sample1.
  destruct (rect_dims D H W v Hr HD HH) as (-> & -> & ->).
  destruct (axis_floor x W Hx HW) as (Hx0 & Hfx & Hx1).
  destruct (axis_floor y H Hy HH) as (Hy0 & Hfy & Hy1).
  destruct (axis_floor z D Hz HD) as (Hz0 & Hfz & Hz1).
  cbv zeta in Hx0, Hfx, Hx1, Hy0, Hfy, Hy1, Hz0, Hfz, Hz1.
  set (x0 := Int_part (unnormalize x W)) in *.
  set (y0 := Int_part (unnormalize y H)) in *.
  set (z0 := Int_part (unnormalize z D)) in *.
  set (fx := unnormalize x W - IZR x0) in *.
  set (fy := unnormalize y H - IZR y0) in *.
  set (fz := unnormalize z D - IZR z0) in *.
  cbv zeta.
  assert (HB : forall iz iy,
             (0 <= iz < Z.of_nat D)%Z -> (0 <= iy < Z.of_nat H)%Z ->
             lo < (1 - fx) * corner v iz iy x0
                  + fx * corner v iz iy (x0 + 1) < hi).
  { intros iz iy Hiz Hiy. apply lerp_bounds; [exact Hfx| |].
    - apply (corner_inside (fun r => lo < r < hi) D H W); trivial.
    - destruct Hx1 as [E|Hin]; [now left|right].
      apply (corner_inside (fun r => lo < r < hi) D H W); trivial. lia. }
  assert (HA : forall iz,
             (0 <= iz < Z.of_nat D)%Z ->
             lo < (1 - fy) * ((1 - fx) * corner v iz y0 x0
                              + fx * corner v iz y0 (x0 + 1))
                  + fy * ((1 - fx) * corner v iz (y0 + 1) x0
                          + fx * corner v iz (y0 + 1) (x0 + 1)) < hi).
  { intros iz Hiz. apply lerp_bounds; [exact Hfy| |].
    - now apply HB.
    - destruct Hy1 as [E|Hin]; [now left|right]. apply HB; lia. }
  assert (HS : lo <
    (1 - fz) * ((1 - fy) * ((1 - fx) * corner v z0 y0 x0
                            + fx * corner v z0 y0 (x0 + 1))
                + fy * ((1 - fx) * corner v z0 (y0 + 1) x0
                        + fx * corner v z0 (y0 + 1) (x0 + 1)))
    + fz * ((1 - fy) * ((1 - fx) * corner v (z0 + 1) y0 x0
                        + fx * corner v (z0 + 1) y0 (x0 + 1))
            + fy * ((1 - fx) * corner v (z0 + 1) (y0 + 1) x0
                    + fx * corner v (z0 + 1) (y0 + 1) (x0 + 1))) < hi).
  { apply lerp_bounds; [exact Hfz| |].
    - now apply HA.
    - destruct Hz1 as [E|Hin]; [now left|right]. apply HA; lia. }
  match goal with
  | HS : lo < ?s < hi |- lo < ?t < hi => replace t with s by ring
  end.
  exact HS.
Qed.

(** ** The sigmoid f-transition keeps the inverse CDF inside its domain *)

Lemma rect_vmap (g : R -> R) (D H W : nat) (x : vol) :
  rect D H W x -> rect D H W (vmap g x).
Proof.
  intros [HD Hall]. unfold rect, vmap. split; [now rewrite length_map|].
  apply Forall_forall. intros pl Hpl. apply in_map_iff in Hpl.
  destruct Hpl as (pl0 & <- & Hin).
  rewrite Forall_forall in Hall. destruct (Hall _ Hin) as [HH Hrows].
  split; [now rewrite length_map|].
  apply Forall_forall. intros r Hr. apply in_map_iff in Hr.
  destruct Hr as (r0 & <- & Hin0).
  rewrite Forall_forall in Hrows. rewrite length_map. now apply Hrows.
Qed.

Lemma vall_vmap (P : R -> Prop) (g : R -> R) (x : vol) :
  (forall r, P (g r)) -> vall P (vmap g x).
Proof.
  intros Hg. unfold vall, vmap.
  apply Forall_forall. intros pl Hpl. apply in_map_iff in Hpl.
  destruct Hpl as (pl0 & <- & _).
  apply Forall_forall. intros r Hr. apply in_map_iff in Hr.
  destruct Hr as (r0 & <- & _).
  apply Forall_forall. intros v Hv. apply in_map_iff in Hv.
  destruct Hv as (v0 & <- & _). apply Hg.
Qed.

Lemma sigmoid_pos (x : R) : 0 < sigmoid x.
Proof.
  unfold sigmoid. pose proof (exp_pos (- x)).
  apply Rdiv_lt_0_compat; lra.
Qed.

Lemma vall_interpolate (P : R -> Prop) (D H W : nat) (v : vol) :
  rect D H W v -> (1 <= D)%nat -> (1 <= H)%nat ->
  vall P v -> vall P (interpolate v 2) /\
  rect (2 * D) (2 * H) (2 * W) (interpolate v 2).
Proof.
  intros Hr HD HH Hall. unfold interpolate.
  destruct (rect_dims D H W v Hr HD HH) as (-> & -> & ->).
  split; [|apply rect_vbuild].
  apply vall_vbuild. intros a b c Ha Hb Hc.
  apply (vall_vget P D H W); trivial;
    apply Nat.Div0.div_lt_upper_bound; lia.
Qed.

Lemma lattice_in_cube (self : TCNNGaussianNeRFField) (p : point) :
  (1 <= dimW (f self))%nat -> In p (lattice self) -> point_in (-1) 1 p.
Proof.
  intros HR Hin. destruct p as [[x y] z].
  apply cartesian_product_In in Hin.
  assert (Haxis : forall t,
             In t (linspace (-1) 1 (2 * dimW (f self))) -> -1 <= t <= 1).
  { intros t Ht. apply (In_nth _ _ 0) in Ht.
    destruct Ht as (i & Hi & <-). rewrite linspace_length in Hi.
    apply lattice_axis_nth; lia. }
  destruct Hin as (Hx & Hy & Hz). unfold point_in.
  auto.
Qed.

Lemma sigmoid_monotone (x y : R) : x <= y -> sigmoid x <= sigmoid y.
Proof.
  intros Hxy. unfold sigmoid, Rdiv. rewrite !Rmult_1_l.
  pose proof (exp_pos (- x)). pose proof (exp_pos (- y)).
  apply Rinv_le_contravar; [lra|].
  destruct Hxy as [Hlt | ->]; [|lra].
  assert (exp (- y) < exp (- x)) by (apply exp_increasing; lra). lra.
Qed.

Lemma vall_impl (P Q : R -> Prop) (v : vol) :
  (forall r, P r -> Q r) -> vall P v -> vall Q v.
Proof.
  intros HPQ Hall. unfold vall in *.
  eapply Forall_impl; [|exact Hall]. cbv beta. intros pl Hpl.
  eapply Forall_impl; [|exact Hpl]. cbv beta. intros row Hrow.
  eapply Forall_impl; [|exact Hrow]. exact HPQ.
Qed.

Lemma vall_vmap_impl (P Q : R -> Prop) (g : R -> R) (x : vol) :
  (forall r, P r -> Q (g r)) -> vall P x -> vall Q (vmap g x).
Proof.
  intros Hg Hall. unfold vall, vmap in *.
  rewrite Forall_forall in Hall.
  apply Forall_forall. intros pl Hpl. apply in_map_iff in Hpl.
  destruct Hpl as (pl0 & <- & Hpl0). specialize (Hall _ Hpl0).
  rewrite Forall_forall in Hall.
  apply Forall_forall. intros r Hr. apply in_map_iff in Hr.
  destruct Hr as (r0 & <- & Hr0). specialize (Hall _ Hr0).
  rewrite Forall_forall in Hall.
  apply Forall_forall. intros v Hv. apply in_map_iff in Hv.
  destruct Hv as (v0 & <- & Hv0). apply Hg. now apply Hall.
Qed.

(** The smoothed grid under the sigmoid f-transition. *)
Lemma smoothed_sigmoid_interior
    (self : TCNNGaussianNeRFField) (s : R) (n : nat) :
  0 < s -> make_gaussian_kernel s = Ok (gaussian_kernel self) ->
  rect n n n (f self) -> (1 <= n)%nat ->
  f_transition_function self = "sigmoid"%string ->
  exists smoothed,
    assign_smoothed_grid self = Ok (Some smoothed) /\
    rect n n n smoothed /\ vall (fun v => 0 < v < 1) smoothed /\
    forall B, vall (fun v => v <= B) (f self) ->
              vall (fun v => v <= sigmoid B) smoothed.
Proof.
  intros Hs Hk Hr Hn Ht.
  destruct (make_gaussian_kernel_facts s _ Hs Hk) as (Hpos & _ & Hsum & Hodd).
  assert (Hpos' : Forall (fun w => 0 < w) (gaussian_kernel self)).
  { eapply Forall_impl; [|exact Hpos]. cbv beta. intros w Hw. lra. }
  unfold assign_smoothed_grid. rewrite Ht.
  cbn [String.eqb Ascii.eqb Bool.eqb].
  rewrite (blur_closed_form self _ n n n);
    try assumption; [|now apply rect_vmap].
  cbn [bind]. eexists. split; [reflexivity|].
  split; [apply rect_vbuild|]. split.
  - apply vall_vbuild. intros a b c Ha Hb Hc.
    apply (full_sum_bounds _ _ n n n 1 a b c); trivial.
    + now apply rect_vmap.
    + apply vall_vmap. intros r. split; [apply sigmoid_pos|apply sigmoid_lt_1].
  - intros B HB. apply vall_vbuild. intros a b c Ha Hb Hc.
    apply (full_sum_bounds _ _ n n n (sigmoid B) a b c); trivial.
    + now apply rect_vmap.
    + apply (vall_vmap_impl (fun v => v <= B)); [|exact HB].
      intros r Hr0. split; [left; apply sigmoid_pos|now apply sigmoid_monotone].
Qed.

(** X7.  With [f_transition_function = "sigmoid"], a grid of positive
    sizes whose values lie in [-10, 10], and the kernel that
    [make_gaussian_kernel] returns for a positive sigma,
    [get_certified_radius] only ever hands values strictly between 0 and 1
    to the inverse CDF, on the [radii] line and on the [output_aux] line
    alike: the smoothed values are positive and at most sigmoid(10), about
    1 - 4.5e-5.  (The bound on the grid keeps the float32 sigmoid, which is
    exactly 1 from about 17 on and exactly 0 far on the negative side, away
    from both ends.) *)
Theorem sigmoid_transition_icdf_inputs_interior
    (self : TCNNGaussianNeRFField) (s : R) (n : nat) :
  0 < s -> make_gaussian_kernel s = Ok (gaussian_kernel self) ->
  rect n n n (f self) -> (1 <= n)%nat ->
  f_transition_function self = "sigmoid"%string ->
  vall (fun v => -10 <= v <= 10) (f self) ->
  (exists smoothed,
      assign_smoothed_grid self = Ok (Some smoothed) /\
      vall (fun o => 0 < o < 1) smoothed /\
      vall (fun o => o <= sigmoid 10) smoothed) /\
  sigmoid 10 < 1 /\
  spec_icdf_inputs_interior self.
Proof.
  intros Hs Hk Hr Hn Ht Hbound.
  destruct (smoothed_sigmoid_interior self s n Hs Hk Hr Hn Ht)
    as (smoothed & Ha & Hrs & Hall & Hupper).
  assert (Hten : vall (fun o => o <= sigmoid 10) smoothed).
  { apply Hupper. apply (vall_impl (fun v => -10 <= v <= 10)); [|exact Hbound].
    intros r Hr0. lra. }
  split; [exists smoothed; now repeat split|].
  split; [apply sigmoid_lt_1|].
  intros sm Hsm. rewrite Ha in Hsm. apply Ok_inj in Hsm.
  injection Hsm as <-.
  split.
  - unfold radii_icdf_input.
    now apply (vall_interpolate _ n n n).
  - unfold grid_sample. apply Forall_forall. intros o Ho.
    apply in_map_iff in Ho. destruct Ho as (p & <- & Hp).
    apply (grid_sample1_bounds n n n); trivial.
    apply (lattice_in_cube self); [|exact Hp].
    destruct (rect_dims n n n _ Hr Hn Hn) as (_ & _ & ->). exact Hn.
Qed.

Lemma sigmoid_transition_icdf_inputs_interior_witness :
  spec_icdf_inputs_interior half_field.
Proof.
  apply (sigmoid_transition_icdf_inputs_interior half_field (1 / 5) 1).
  - lra.
  - apply make_gaussian_kernel_fifth.
  - apply rect_vbuild.
  - lia.
  - reflexivity.
  - apply vall_vbuild. intros. lra.
Defined.

(** ** When the queries return *)




(** ** The g-transition *)

Lemma vget_vmap (g : R -> R) (D H W : nat) (x : vol) (a b c : nat) :
  rect D H W x -> (a < D)%nat -> (b < H)%nat -> (c < W)%nat ->
  vget (vmap g x) a b c = g (vget x a b c).
Proof.
  intros Hr Ha Hb Hc. rewrite (rect_eta D H W x Hr) at 1.
  rewrite vmap_vbuild. now apply vget_vbuild.
Qed.

(** X9.  The g-transition of [get_density] keeps the sizes of the
    smoothed grid.  With any name other than "sigmoid" it returns the
    smoothed grid itself.  With "sigmoid" every value lies in [0, 1], and
    for alpha >= 0 the order of any two voxels is kept and no voxel crosses
    1/2: a voxel that was at least 1/2 stays at least 1/2, and one that was
    at most 1/2 stays at most 1/2. *)
Theorem g_transition_sharpening
    (self : TCNNGaussianNeRFField) (smoothed G : vol) (D H W : nat) :
  rect D H W smoothed ->
  arg_maxed_smoothed_grid self (Some smoothed) = Ok G ->
  rect D H W G /\
  (g_transition_function self <> "sigmoid"%string -> G = smoothed) /\
  (g_transition_function self = "sigmoid"%string ->
   vall (fun v => 0 <= v <= 1) G /\
   forall a b c, (a < D)%nat -> (b < H)%nat -> (c < W)%nat ->
     0 <= g_transition_alpha self ->
     (1 / 2 <= vget smoothed a b c -> 1 / 2 <= vget G a b c) /\
     (vget smoothed a b c <= 1 / 2 -> vget G a b c <= 1 / 2) /\
     forall a' b' c', (a' < D)%nat -> (b' < H)%nat -> (c' < W)%nat ->
       vget smoothed a b c <= vget smoothed a' b' c' ->
       vget G a b c <= vget G a' b' c').
Proof.
  intros Hr HG. rewrite arg_maxed_density_grid in HG. apply Ok_inj in HG.
  subst G. unfold density_grid_of.
  destruct (String.eqb_spec (g_transition_function self) "sigmoid") as [E|N].
  - split; [now apply rect_vmap|]. split; [intros Hn; contradiction|].
    intros _. split.
    + apply vall_vmap. intros r.
      pose proof (sigmoid_pos (g_transition_alpha self * (r - 1 / 2))).
      pose proof (sigmoid_lt_1 (g_transition_alpha self * (r - 1 / 2))).
      lra.
    + intros a b c Ha Hb Hc Halpha.
      rewrite (vget_vmap _ D H W) by assumption.
      split; [|split].
      * intros Hge. apply Rle_trans with (sigmoid 0);
          [rewrite sigmoid_0; lra|].
        apply sigmoid_monotone. apply Rmult_le_pos; lra.
      * intros Hle. apply Rle_trans with (sigmoid 0);
          [|rewrite sigmoid_0; lra].
        apply sigmoid_monotone.
        rewrite <- (Rmult_0_r (g_transition_alpha self)).
        apply Rmult_le_compat_l; lra.
      * intros a' b' c' Ha' Hb' Hc' Hle.
        rewrite (vget_vmap _ D H W) by assumption.
        apply sigmoid_monotone. apply Rmult_le_compat_l; lra.
  - split; [exact Hr|]. split; [reflexivity|]. intros E. contradiction.
Qed.

Lemma g_transition_sharpening_witness :
  rect 1 1 1 (torch_full 1 1 1 (sigmoid (4 * (1 - 1 / 2)))) /\
  vall (fun v => 0 <= v <= 1) (torch_full 1 1 1 (sigmoid (4 * (1 - 1 / 2)))).
Proof.
  destruct (g_transition_sharpening ones_field (torch_full 1 1 1 1)
              (torch_full 1 1 1 (sigmoid (4 * (1 - 1 / 2)))) 1 1 1
              (rect_vbuild 1 1 1 _) eq_refl)
    as (Hrect & _ & Hsig).
  split; [exact Hrect|]. now destruct (Hsig eq_refl).
Defined.

(** ** The heat maps of the image-metrics pass *)









(** ** The loss ignores dead rays *)

Lemma masked_combine (xs ys : list point) (mask : list bool) :
  length xs = length mask -> length ys = length mask ->
  combine (map fst (filter snd (combine xs mask)))
          (map fst (filter snd (combine ys mask)))
  = map fst (filter snd (combine (combine xs ys) mask)).
Proof.
  revert xs ys. induction mask as [|m mask IH]; intros xs ys Hx Hy.
  - destruct xs; [|discriminate]. reflexivity.
  - destruct xs as [|x xs]; [discriminate|].
    destruct ys as [|y ys]; [discriminate|].
    cbn [combine filter snd]. destruct m; cbn [map fst combine];
      rewrite IH by (simpl in *; lia); reflexivity.
Qed.

Lemma masked_agree (img xs ys : list point) (mask : list bool) :
  length img = length mask -> length xs = length mask ->
  length ys = length mask -> agree_on_alive mask xs ys ->
  map fst (filter snd (combine (combine img xs) mask))
  = map fst (filter snd (combine (combine img ys) mask)).
Proof.
  revert img xs ys. induction mask as [|m mask IH]; intros img xs ys Hi Hx Hy Hag.
  - destruct img; [|discriminate]. reflexivity.
  - destruct img as [|p img]; [discriminate|].
    destruct xs as [|x xs]; [discriminate|].
    destruct ys as [|y ys]; [discriminate|].
    assert (Htail : agree_on_alive mask xs ys).
    { intros i Hm. apply (Hag (S i)). exact Hm. }
    cbn [combine filter snd]. destruct m; cbn [map fst].
    + rewrite (Hag 0%nat eq_refl : x = y).
      f_equal. apply IH; simpl in *; try lia; exact Htail.
    + apply IH; simpl in *; try lia; exact Htail.
Qed.

Lemma pixel_sq_err_nonneg (pq : point * point) : 0 <= pixel_sq_err pq.
Proof.
  destruct pq as [[[r1 g1] b1] [[r2 g2] b2]]. unfold pixel_sq_err.
  pose proof (pow2_ge_0 (r1 - r2)). pose proof (pow2_ge_0 (g1 - g2)).
  pose proof (pow2_ge_0 (b1 - b2)). lra.
Qed.

Lemma mse_loss_nonneg (a b : list point) : 0 <= mse_loss a b.
Proof.
  unfold mse_loss.
  assert (Hs : 0 <= Rsum (map pixel_sq_err (combine a b))).
  { apply Rsum_nonneg, Forall_forall. intros x Hx.
    apply in_map_iff in Hx. destruct Hx as (pq & <- & _).
    apply pixel_sq_err_nonneg. }
  destruct a as [|p a].
  - simpl. unfold Rdiv. rewrite Rmult_0_l. lra.
  - apply Rmult_le_pos; [exact Hs|].
    left. apply Rinv_0_lt_compat. apply lt_0_INR. simpl. lia.
Qed.

Lemma pixel_sq_err_zero (p q : point) : pixel_sq_err (p, q) = 0 <-> p = q.
Proof.
  destruct p as [[r1 g1] b1]. destruct q as [[r2 g2] b2].
  unfold pixel_sq_err. split.
  - intros H0.
    pose proof (pow2_ge_0 (r1 - r2)) as Hr.
    pose proof (pow2_ge_0 (g1 - g2)) as Hg.
    pose proof (pow2_ge_0 (b1 - b2)) as Hb.
    assert (Hr0 : (r1 - r2) ^ 2 = 0) by lra.
    assert (Hg0 : (g1 - g2) ^ 2 = 0) by lra.
    assert (Hb0 : (b1 - b2) ^ 2 = 0) by lra.
    assert (Hsq : forall a : R, a ^ 2 = 0 -> a = 0).
    { intros a Ha. simpl in Ha. apply Rmult_integral in Ha.
      destruct Ha as [Ha|Ha]; [exact Ha|].
      apply Rmult_integral in Ha. destruct Ha as [Ha|Ha]; lra. }
    apply Hsq in Hr0. apply Hsq in Hg0. apply Hsq in Hb0.
    repeat f_equal; lra.
  - intros Heq. inversion Heq; subst. ring.
Qed.

Lemma masked_sq_err_nonneg (l : list (point * point)) :
  0 <= Rsum (map pixel_sq_err l).
Proof.
  apply Rsum_nonneg, Forall_forall. intros x Hx.
  apply in_map_iff in Hx. destruct Hx as (pq & <- & _).
  apply pixel_sq_err_nonneg.
Qed.

Lemma masked_sq_err_zero (img xs : list point) (mask : list bool) :
  length img = length mask -> length xs = length mask ->
  Rsum (map pixel_sq_err
            (map fst (filter snd (combine (combine img xs) mask)))) = 0
  <-> agree_on_alive mask img xs.
Proof.
  revert img xs. induction mask as [|m mask IH]; intros img xs Hi Hx.
  - destruct img; [|discriminate]. simpl. split; [|reflexivity].
    intros _ [|i] Hm; discriminate Hm.
  - destruct img as [|p img]; [discriminate|].
    destruct xs as [|x xs]; [discriminate|].
    assert (Hi' : length img = length mask) by (simpl in Hi; lia).
    assert (Hx' : length xs = length mask) by (simpl in Hx; lia).
    specialize (IH img xs Hi' Hx').
    cbn [combine filter snd]. destruct m; cbn [map fst Rsum fold_right].
    + fold (Rsum (map pixel_sq_err
                    (map fst (filter snd (combine (combine img xs) mask))))).
      pose proof (pixel_sq_err_nonneg (p, x)) as Hp.
      pose proof (masked_sq_err_nonneg
                    (map fst (filter snd (combine (combine img xs) mask))))
        as Hs.
      split.
      * intros H0.
        assert (Hp0 : pixel_sq_err (p, x) = 0) by lra.
        assert (Hs0 : Rsum (map pixel_sq_err
                    (map fst (filter snd (combine (combine img xs) mask))))
                      = 0) by lra.
        apply pixel_sq_err_zero in Hp0. apply IH in Hs0.
        intros [|i] Hm; [exact Hp0|exact (Hs0 i Hm)].
      * intros Hag.
        assert (Hp0 : pixel_sq_err (p, x) = 0).
        { apply pixel_sq_err_zero. exact (Hag 0%nat eq_refl). }
        assert (Hs0 : Rsum (map pixel_sq_err
                    (map fst (filter snd (combine (combine img xs) mask))))
                      = 0).
        { apply IH. intros i Hm. exact (Hag (S i) Hm). }
        lra.
    + etransitivity; [exact IH|]. split.
      * intros Hag [|i] Hm; [discriminate Hm|exact (Hag i Hm)].
      * intros Hag i Hm. exact (Hag (S i) Hm).
Qed.

Lemma masked_alive_nonempty (img : list point) (mask : list bool) :
  length img = length mask -> In true mask ->
  (0 < length (map fst (filter snd (combine img mask))))%nat.
Proof.
  revert img. induction mask as [|m mask IH]; intros img Hi Hin.
  - destruct Hin.
  - destruct img as [|p img]; [discriminate|].
    cbn [combine filter snd]. destruct m.
    + simpl. lia.
    + destruct Hin as [Hf|Hin]; [discriminate|].
      apply IH; [simpl in Hi; lia|exact Hin].
Qed.

(** X12.  With one row per ray in the image, the prediction and the mask,
    and at least one ray alive, [get_loss_dict] returns the single entry
    "rgb_loss".  The loss is never negative; it is zero exactly when the
    prediction equals the image on every alive ray; and it does not depend
    on the predicted colours of the rays that are not alive.  A prediction
    whose number of rows differs from the mask's is an error. *)
Theorem get_loss_dict_alive_rays_only
    (image_ rgb : list point) (alive_ray_mask : list bool) :
  length image_ = length alive_ray_mask ->
  length rgb = length alive_ray_mask ->
  In true alive_ray_mask ->
  exists rgb_loss,
    get_loss_dict image_ rgb alive_ray_mask
    = Some [("rgb_loss"%string, rgb_loss)] /\
    0 <= rgb_loss /\
    (rgb_loss = 0 <-> agree_on_alive alive_ray_mask image_ rgb) /\
    (forall rgb', length rgb' = length alive_ray_mask ->
       agree_on_alive alive_ray_mask rgb rgb' ->
       get_loss_dict image_ rgb' alive_ray_mask
       = get_loss_dict image_ rgb alive_ray_mask) /\
    (forall short, length short <> length alive_ray_mask ->
       get_loss_dict image_ short alive_ray_mask = None).
Proof.
  intros Hi Hr Halive. unfold get_loss_dict, boolean_index.
  rewrite Hi, Hr, Nat.eqb_refl.
  eexists. split; [reflexivity|]. split; [apply mse_loss_nonneg|].
  split; [|split].
  - unfold mse_loss. rewrite masked_combine by assumption.
    pose proof (masked_alive_nonempty image_ alive_ray_mask Hi Halive) as HK.
    assert (HK' : 0 < INR (3 *
              length (map fst (filter snd (combine image_ alive_ray_mask))))).
    { apply lt_0_INR. lia. }
    etransitivity; [|apply masked_sq_err_zero; assumption].
    split.
    + intros H0. unfold Rdiv in H0.
      apply Rmult_integral in H0. destruct H0 as [H0|H0]; [exact H0|].
      pose proof (Rinv_0_lt_compat _ HK'). lra.
    + intros H0. rewrite H0. unfold Rdiv. apply Rmult_0_l.
  - intros rgb' Hr' Hag. rewrite Hr', Nat.eqb_refl.
    unfold mse_loss. rewrite !masked_combine by assumption.
    now rewrite (masked_agree image_ rgb' rgb alive_ray_mask)
      by (trivial; intros i Hm; symmetry; now apply Hag).
  - intros short Hs. apply Nat.eqb_neq in Hs. now rewrite Hs.
Qed.

Lemma get_loss_dict_alive_rays_only_witness :
  exists rgb_loss,
    get_loss_dict [(1, 1, 1); (0, 0, 0)] [(1, 1, 1); (1 / 2, 1 / 2, 1 / 2)]
                  [true; false]
    = Some [("rgb_loss"%string, rgb_loss)] /\ 0 <= rgb_loss.
Proof.
  destruct (get_loss_dict_alive_rays_only
              [(1, 1, 1); (0, 0, 0)] [(1, 1, 1); (1 / 2, 1 / 2, 1 / 2)]
              [true; false] eq_refl eq_refl (or_introl eq_refl))
    as (rgb_loss & Hd & Hpos & _).
  exists rgb_loss. split; [exact Hd|exact Hpos].
Defined.

(** ** The density is bounded below by the multiplier *)







